(** * Agent graph: correlation, layout, activity decay and the two routes

    A shallow embedding of
      - [src/app/agents/page.tsx]      (matchAgentByMessage, computeLayout,
                                        the SSE message handler and the
                                        highlight sweep, isEdgeActive, the
                                        canvas size and the hover state),
      - the agents-graph library       (the static nodes and edges,
                                        getAgentGraph),
      - the graph route                (GET),
      - the progress push route        (POST).

    JavaScript strings are modelled as [string] (byte strings); case folding
    acts on the ASCII letters, which is all the keyword rules look at.
    JavaScript numbers that the code computes with are integers well inside
    the exact range of a double and are modelled as [Z]. *)

From Stdlib Require Import ZArith Ascii String List Permutation Sorted.
From stdpp Require Import base tactics option list strings gmap fin_maps.

Set Warnings "-register-all".

Local Open Scope string_scope.
Local Open Scope Z_scope.
Local Open Scope list_scope.

(** ** Strings *)

Module Str.

Definition lower_ascii (c : ascii) : ascii :=
  let n := nat_of_ascii c in
  if ((65 <=? n)%nat && (n <=? 90)%nat)%bool then ascii_of_nat (n + 32) else c.

(** [s.toLowerCase()] *)
Fixpoint toLowerCase (s : string) : string :=
  match s with
  | EmptyString => EmptyString
  | String c r => String (lower_ascii c) (toLowerCase r)
  end.

(** [s.includes(sub)] *)
Fixpoint includes (s sub : string) : bool :=
  (String.prefix sub s ||
   match s with
   | EmptyString => false
   | String _ r => includes r sub
   end)%bool.

(** [/a|b|.../.test(m)] for a pattern that is an alternation of literal
    words: some alternative occurs in [m]. *)
Definition test (alts : list string) (m : string) : bool :=
  existsb (includes m) alts.

(** [/a|b|.../i.test(m)] for lower-case literal alternatives: the match
    ignores the case of the subject. *)
Definition test_i (alts : list string) (m : string) : bool :=
  existsb (includes (toLowerCase m)) alts.

(** A JavaScript string is truthy when it is not empty. *)
Definition truthy (s : string) : bool :=
  match s with EmptyString => false | _ => true end.

End Str.

(** ** The graph model (agents-graph library, repeated in page.tsx) *)

Inductive Method := M_GET | M_POST | M_DELETE.

Inductive Group := orchestration | analysis | generation | media | progress.

Global Instance Group_eq_dec : EqDecision Group.
Proof. solve_decision. Defined.

Global Instance Method_eq_dec : EqDecision Method.
Proof. solve_decision. Defined.

Record AgentNode := {
  id : string;
  name : string;
  path : string;
  methods : list Method;
  description : option string;
  group : Group;
  env : option (list string)
}.

Record AgentEdge := {
  from : string;
  to : string;
  label : option string;
  optional : option bool
}.

Record AgentGraph := {
  nodes : list AgentNode;
  edges : list AgentEdge
}.

Global Instance AgentNode_eq_dec : EqDecision AgentNode.
Proof. solve_decision. Defined.

Global Instance AgentEdge_eq_dec : EqDecision AgentEdge.
Proof. solve_decision. Defined.

Definition node_ids (g : AgentGraph) : list string := map id (nodes g).

(** ** The static graph *)

Module AgentsGraph.

Definition mk (i n p : string) (ms : list Method) (d : string) (g : Group)
    (e : option (list string)) : AgentNode :=
  {| id := i; name := n; path := p; methods := ms;
     description := Some d; group := g; env := e |}.

Definition neo4j : list string := ["NEO4J_URI"; "NEO4J_USERNAME"; "NEO4J_PASSWORD"].

Definition nodes : list AgentNode := [
  mk "voice.run" "Voice Run" "/api/voice/run" [M_POST]
     "Orchestrates full campaign: analyze image, cultural cues, image+video generation."
     orchestration (Some ["NEXT_PUBLIC_BASE_URL"]);
  mk "demographics.expand" "Demographics Expand" "/api/demographics/expand" [M_POST]
     "Expands raw plan text to structured demographics (LLM or heuristic)."
     analysis (Some ["OPENAI_API_KEY"; "OPENAI_MODEL"]);
  mk "cultural.intelligence" "Cultural Intelligence" "/api/cultural/intelligence" [M_POST]
     "Generates cultural insights using Qloo + LLM fallback."
     analysis (Some ["OPENAI_API_KEY"; "OPENAI_MODEL"]);
  mk "vision.analyze" "Vision Analyze" "/api/vision/analyze" [M_POST]
     "Extracts structured insights from an image (OpenAI Vision)."
     analysis (Some ["OPENAI_API_KEY"; "OPENAI_VISION_MODEL"]);
  mk "imagen.generate" "Imagen Generate" "/api/imagen/generate" [M_POST]
     "Generates an image via Imagen; persists to Neo4j and serves via media/file."
     generation (Some ("GEMINI_API_KEY" :: neo4j));
  mk "gemini.generate" "Gemini Generate" "/api/gemini/generate" [M_POST]
     "Generates image via Gemini; falls back to Imagen; persists to Neo4j."
     generation (Some ("GEMINI_API_KEY" :: neo4j));
  mk "gemini.edit" "Gemini Edit" "/api/gemini/edit" [M_POST]
     "Edits images via Gemini (multipart); persists to Neo4j."
     generation (Some ("GEMINI_API_KEY" :: neo4j));
  mk "veo.generate" "Veo Generate" "/api/veo/generate" [M_POST]
     "Starts a video generation operation (Veo)."
     generation (Some ["GEMINI_API_KEY"]);
  mk "veo.operation" "Veo Operation" "/api/veo/operation" [M_POST]
     "Polls a Veo operation for completion and collects URIs."
     generation (Some ["GEMINI_API_KEY"]);
  mk "veo.download" "Veo Download" "/api/veo/download" [M_POST]
     "Downloads/streams generated video; optionally saves to Neo4j & disk."
     generation (Some ("GEMINI_API_KEY" :: neo4j));
  mk "media.index" "Media Index" "/api/media" [M_GET; M_POST; M_DELETE]
     "CRUD for Media nodes in Neo4j (images/videos/tags)."
     media (Some neo4j);
  mk "media.file" "Media File" "/api/media/file" [M_GET]
     "Streams bytes for image media by id; redirects videos to saved URL."
     media (Some neo4j);
  mk "progress.sse" "Progress SSE" "/api/progress" [M_GET]
     "Server-sent events stream for long-running tasks."
     progress None;
  mk "progress.push" "Progress Push" "/api/progress/push" [M_POST]
     "Pushes progress messages to SSE clients via in-memory bus."
     progress None
].

Definition ed (f t l : string) (o : option bool) : AgentEdge :=
  {| from := f; to := t; label := Some l; optional := o |}.

Definition edges : list AgentEdge := [
  ed "voice.run" "vision.analyze" "analyze image" (Some true);
  ed "voice.run" "cultural.intelligence" "cultural cues" None;
  ed "voice.run" "imagen.generate" "generate image" None;
  ed "voice.run" "veo.generate" "generate video" None;
  ed "veo.generate" "veo.operation" "poll" None;
  ed "veo.operation" "veo.download" "download/save" None;
  ed "gemini.generate" "media.file" "serve image" None;
  ed "gemini.edit" "media.file" "serve image" None;
  ed "imagen.generate" "media.file" "serve image" None;
  ed "voice.run" "progress.push" "status events" None
].

Definition getAgentGraph : AgentGraph := Build_AgentGraph nodes edges.

Definition getAgentList : list AgentNode := nodes.

End AgentsGraph.

(** ** Correlation Engine (page.tsx, matchAgentByMessage) *)

(** The three lookup keys of a node, [[n.name, n.path, n.id]]. *)
Definition keys (n : AgentNode) : list string := [name n; path n; id n].

(** [keys.some((k) => (k || "").toLowerCase().includes(w))] *)
Definition keys_include (n : AgentNode) (w : string) : bool :=
  existsb (fun k => Str.includes (Str.toLowerCase k) w) (keys n).

Definition rule_voice (n : AgentNode) (m : string) : bool :=
  keys_include n "voice run" && Str.test ["voice"] m.
Definition rule_vision (n : AgentNode) (m : string) : bool :=
  keys_include n "vision" && Str.test_i ["analyz"; "image"] m.
Definition rule_cultural (n : AgentNode) (m : string) : bool :=
  keys_include n "cultural" && Str.test_i ["cultural"; "culture"] m.
Definition rule_imagen (n : AgentNode) (m : string) : bool :=
  keys_include n "imagen" && Str.test_i ["image"; "imagen"] m.
Definition rule_veo (n : AgentNode) (m : string) : bool :=
  keys_include n "veo" && Str.test_i ["video"; "veo"; "operation"; "download"] m.

(** One turn of the loop body: [Some r] when the body returns [r]. *)
Definition match_node (n : AgentNode) (m : string) : option string :=
  if rule_voice n m then Some "voice.run"
  else if rule_vision n m then Some "vision.analyze"
  else if rule_cultural n m then Some "cultural.intelligence"
  else if rule_imagen n m then Some "imagen.generate"
  else if rule_veo n m then Some (id n)
  else None.

(** The loop over the nodes, on the lower-cased message. *)
Fixpoint match_loop (ns : list AgentNode) (m : string) : option string :=
  match ns with
  | [] => None
  | n :: rest =>
      match match_node n m with
      | Some r => Some r
      | None => match_loop rest m
      end
  end.

Definition matchAgentByMessage (graph : AgentGraph) (message : string) : option string :=
  match_loop (nodes graph) (Str.toLowerCase message).

(** ** Layout Engine (page.tsx, computeLayout) *)

Record PositionedNode := {
  node : AgentNode;
  x : Z;
  y : Z
}.

Record PositionedEdge := {
  edge : AgentEdge;
  x1 : Z;
  y1 : Z;
  x2 : Z;
  y2 : Z
}.

Record Layout := {
  positionedNodes : list PositionedNode;
  positionedEdges : list PositionedEdge
}.

Definition laneOrder : list Group :=
  [orchestration; analysis; generation; media; progress].

(** [Object.fromEntries(laneOrder.map((g, i) => [g, 120 + i * 260]))] *)
Definition laneX_entries : list (Group * Z) :=
  imap (fun i g => (g, 120 + Z.of_nat i * 260)) laneOrder.

Definition laneX (g : Group) : Z :=
  match List.find (fun e => bool_decide (fst e = g)) laneX_entries with
  | Some e => snd e
  | None => 0
  end.

(** [buckets[g]]: the nodes of group [g], pushed in input order. *)
Definition bucket (g : Group) (ns : list AgentNode) : list AgentNode :=
  filter (fun n => group n = g) ns.

Section Sort.
Context {A : Type} (cmp : A -> A -> Z).

(** [Array.prototype.sort] is a stable sort. It is embedded as an insertion
    sort: an element goes in front of the first one it does not compare
    greater than. With a consistent comparator every stable sort gives this
    result ([stable_sort_unique] below). *)
Fixpoint sort_insert (a : A) (l : list A) : list A :=
  match l with
  | [] => [a]
  | b :: r => if cmp a b <=? 0 then a :: b :: r else b :: sort_insert a r
  end.

Fixpoint sort (l : list A) : list A :=
  match l with
  | [] => []
  | a :: r => sort_insert a (sort r)
  end.

(** [a] may stand before [b]; [a] and [b] compare equal. *)
Definition ordered (a b : A) : Prop := cmp a b <= 0.
Definition tied (a b : A) : Prop := cmp a b = 0.

Global Instance tied_dec a b : Decision (tied a b).
Proof. unfold tied. apply _. Defined.

(** The comparator is consistent in the sense of the language standard:
    swapping the arguments swaps the sign, and the order is transitive
    (ties then form an equivalence). *)
Record Consistent : Prop := {
  cmp_swap : forall a b, cmp a b < 0 <-> 0 < cmp b a;
  cmp_trans : forall a b c, cmp a b <= 0 -> cmp b c <= 0 -> cmp a c <= 0;
}.
End Sort.

Section Layout.
(** [String.prototype.localeCompare], given by the host's collation. *)
Variable localeCompare : string -> string -> Z.

(** [(a, b) => a.name.localeCompare(b.name)] *)
Definition by_name (a b : AgentNode) : Z := localeCompare (name a) (name b).

(** The nodes of one lane, sorted by name and placed. *)
Definition lane (g : Group) (ns : list AgentNode) : list PositionedNode :=
  imap (fun idx n => {| node := n; x := laneX g; y := 120 + Z.of_nat idx * 160 |})
       (sort by_name (bucket g ns)).

Definition place (ns : list AgentNode) : list PositionedNode :=
  flat_map (fun g => lane g ns) laneOrder.

(** [positionedNodes.find((n) => n.id === id)] *)
Definition find (ps : list PositionedNode) (i : string) : option PositionedNode :=
  List.find (fun n => String.eqb (id (node n)) i) ps.

(** One turn of the loop over [graph.edges]: the edges pushed. *)
Definition place_edge (ps : list PositionedNode) (e : AgentEdge) : list PositionedEdge :=
  match find ps (from e), find ps (to e) with
  | Some a, Some b =>
      [ {| edge := e; x1 := x a + 200; y1 := y a + 48; x2 := x b; y2 := y b + 48 |} ]
  | _, _ => []
  end.

Definition computeLayout (graph : AgentGraph) : Layout :=
  let ps := place (nodes graph) in
  {| positionedNodes := ps;
     positionedEdges := flat_map (place_edge ps) (edges graph) |}.

End Layout.

(** Both ends of the edge are ids of nodes of the list. *)
Definition resolved (ns : list AgentNode) (e : AgentEdge) : Prop :=
  from e ∈ map id ns /\ to e ∈ map id ns.

(** The place of a node in its lane: its group and vertical offset. *)
Definition slot (p : PositionedNode) : Group * Z := (group (node p), y p).

(** ** JavaScript values seen by the route handlers *)

(** A parsed JSON value, a thrown value or [undefined]. The handlers only
    test numbers for truthiness; integers stand for them. An object is the
    list of its own properties. *)
Inductive jsval :=
  | JUndefined
  | JNull
  | JBool (b : bool)
  | JNum (z : Z)
  | JStr (s : string)
  | JArr (items : list jsval)
  | JObj (fields : list (string * jsval)).

Module Js.

(** The outcome of a call that may throw. *)
Inductive result (A : Type) :=
  | Ok (a : A)
  | Throw (e : jsval).
Arguments Ok {A} a.
Arguments Throw {A} e.

Fixpoint assoc (k : string) (fields : list (string * jsval)) : jsval :=
  match fields with
  | [] => JUndefined
  | (k', v) :: r => if String.eqb k k' then v else assoc k r
  end.

(** [v?.k] for the property names the handlers read: an object yields its
    own property, every other value yields [undefined]. *)
Definition get (v : jsval) (k : string) : jsval :=
  match v with
  | JObj fields => assoc k fields
  | _ => JUndefined
  end.

Definition truthy (v : jsval) : bool :=
  match v with
  | JUndefined | JNull => false
  | JBool b => b
  | JNum z => negb (z =? 0)
  | JStr s => Str.truthy s
  | JArr _ | JObj _ => true
  end.

(** [a || b] *)
Definition or (a b : jsval) : jsval := if truthy a then a else b.

(** [typeof v === 'object'] *)
Definition is_object (v : jsval) : bool :=
  match v with
  | JNull | JArr _ | JObj _ => true
  | _ => false
  end.

Definition bytes (l : list nat) : string :=
  fold_right (fun n s => String (ascii_of_nat n) s) EmptyString l.

(** White space and line terminators, as UTF-8 byte sequences. *)
Definition white_space : list string :=
  map bytes
    [ [9]; [10]; [11]; [12]; [13]; [32];
      [194; 160]; [225; 154; 128];
      [226; 128; 128]; [226; 128; 129]; [226; 128; 130]; [226; 128; 131];
      [226; 128; 132]; [226; 128; 133]; [226; 128; 134]; [226; 128; 135];
      [226; 128; 136]; [226; 128; 137]; [226; 128; 138];
      [226; 128; 168]; [226; 128; 169]; [226; 128; 175];
      [226; 129; 159]; [227; 128; 128]; [239; 187; 191] ]%nat.

Fixpoint string_rev (s : string) : string :=
  match s with
  | EmptyString => EmptyString
  | String c r => string_rev r +:+ String c EmptyString
  end.

(** The rest of [s] after one leading white-space character, if any. *)
Definition drop_space (ws : list string) (s : string) : option string :=
  match List.find (fun w => String.prefix w s) ws with
  | Some w => Some (String.substring (String.length w) (String.length s - String.length w) s)
  | None => None
  end.

Fixpoint trim_start (ws : list string) (fuel : nat) (s : string) : string :=
  match fuel with
  | O => s
  | S fuel' =>
      match drop_space ws s with
      | Some r => trim_start ws fuel' r
      | None => s
      end
  end.

Definition trimStart (s : string) : string :=
  trim_start white_space (String.length s) s.

Definition trimEnd (s : string) : string :=
  string_rev (trim_start (map string_rev white_space) (String.length s) (string_rev s)).

(** [s.trim()] *)
Definition trim (s : string) : string := trimEnd (trimStart s).

End Js.

(** A reply built by [NextResponse.json(payload, { status })]. *)
Record Response := {
  status_code : Z;
  payload : jsval
}.

(** The event handed to the bus and received back on the stream:
    [{ text?, agentId?, status?, data?, ts }]. *)
Record ProgressEvent := {
  text : option string;
  agentId : option string;
  status : option string;
  data : option jsval;
  ts : Z
}.

(** ** Graph route (GET) *)

Module GraphRoute.

Definition json_opt {A} (k : string) (f : A -> jsval) (o : option A)
    : list (string * jsval) :=
  match o with Some a => [(k, f a)] | None => [] end.

Definition json_of_method (m : Method) : jsval :=
  JStr match m with M_GET => "GET" | M_POST => "POST" | M_DELETE => "DELETE" end.

Definition json_of_group (g : Group) : jsval :=
  JStr match g with
       | orchestration => "orchestration" | analysis => "analysis"
       | generation => "generation" | media => "media" | progress => "progress"
       end.

Definition json_of_node (n : AgentNode) : jsval :=
  JObj ([("id", JStr (id n)); ("name", JStr (name n)); ("path", JStr (path n));
         ("methods", JArr (map json_of_method (methods n)))]
        ++ json_opt "description" JStr (description n)
        ++ [("group", json_of_group (group n))]
        ++ json_opt "env" (fun l => JArr (map JStr l)) (env n)).

Definition json_of_edge (e : AgentEdge) : jsval :=
  JObj ([("from", JStr (from e)); ("to", JStr (to e))]
        ++ json_opt "label" JStr (label e)
        ++ json_opt "optional" JBool (optional e)).

Definition json_of_graph (g : AgentGraph) : jsval :=
  JObj [("nodes", JArr (map json_of_node (nodes g)));
        ("edges", JArr (map json_of_edge (edges g)))].

(** The handler, over the outcome of its call to [getAgentGraph]. *)
Definition GET_of (call : Js.result AgentGraph) : Response :=
  match call with
  | Js.Ok graph => {| status_code := 200; payload := json_of_graph graph |}
  | Js.Throw e =>
      {| status_code := 500;
         payload := JObj [("error", Js.or (Js.get e "message") (JStr "Failed to get graph"))] |}
  end.

Definition GET : Response := GET_of (Js.Ok AgentsGraph.getAgentGraph).

End GraphRoute.

(** ** Progress push route (POST) *)

Section PushRoute.
(** The progress bus lives outside these sources: the handler is read
    against any bus, [publish session ev bus] giving the bus after
    [getBus().publish(session, ev)] and what the call threw, if anything. *)
Context {Bus : Type}.
Variable publish : string -> ProgressEvent -> Bus -> Bus * option jsval.
(** The [String(v)] conversion. *)
Variable ToString : jsval -> string.

Definition body_message (body : jsval) : string :=
  match Js.get body "message" with
  | JStr s => Js.trim s
  | _ => ""
  end.

Definition body_string (body : jsval) (k : string) : option string :=
  match Js.get body k with
  | JStr s => Some s
  | _ => None
  end.

Definition body_data (body : jsval) : option jsval :=
  if (Js.truthy body && Js.is_object (Js.get body "data"))%bool
  then Some (Js.get body "data") else None.


Definition event_of (body : jsval) (now : Z) : ProgressEvent :=
  let message := body_message body in
  {| text := if Str.truthy message then Some message else None;
     agentId := body_string body "agentId";
     status := body_string body "status";
     data := body_data body;
     ts := now |}.



End PushRoute.


(** The request carries no agent id: the field is absent, is not a string,
    or is the empty string. *)
Definition lacks_agentId (body : jsval) : Prop :=
  match Js.get body "agentId" with
  | JStr s => s = ""
  | _ => True
  end.

(** ** Activity Decay Tracker (page.tsx, the message handler and the sweep) *)

Section Tracker.
Variable graph : AgentGraph.

(** [{ ...prev, [id]: Date.now() }] *)
Definition arrive (i : string) (now : Z) (prev : gmap string Z) : gmap string Z :=
  <[i := now]> prev.

(** The id a frame is recorded under, if any: the explicit [agentId] when
    it is truthy, else the correlation match on [data?.text || ""] when
    that is truthy. *)
Definition resolve (frame : ProgressEvent) : option string :=
  match agentId frame with
  | Some a =>
      if Str.truthy a then Some a
      else match matchAgentByMessage graph (default "" (text frame)) with
           | Some m => if Str.truthy m then Some m else None
           | None => None
           end
  | None =>
      match matchAgentByMessage graph (default "" (text frame)) with
      | Some m => if Str.truthy m then Some m else None
      | None => None
      end
  end.

(** [es.onmessage]; [frame] is [None] when [JSON.parse] throws. *)
Definition onmessage (frame : option ProgressEvent) (now : Z)
    (prev : gmap string Z) : gmap string Z :=
  match frame with
  | None => prev
  | Some d =>
      match resolve d with
      | Some i => arrive i now prev
      | None => prev
      end
  end.

(** [next[k] = v] on a plain object: the key ["__proto__"] reaches the
    prototype setter, which ignores a number, and stores nothing. *)
Definition assign (k : string) (v : Z) (next : gmap string Z) : gmap string Z :=
  if String.eqb k "__proto__" then next else <[k := v]> next.

(** The interval callback: the entries younger than 4000 ms are copied
    into a fresh object. *)
Definition sweep (now : Z) (prev : gmap string Z) : gmap string Z :=
  map_fold (fun k v next => if now - v <? 4000 then assign k v next else next) ∅ prev.

Inductive TrackerEvent :=
  | Message (frame : option ProgressEvent) (now : Z)
  | Tick (now : Z).

Definition time_of (ev : TrackerEvent) : Z :=
  match ev with Message _ t => t | Tick t => t end.

Definition step (ev : TrackerEvent) (m : gmap string Z) : gmap string Z :=
  match ev with
  | Message frame now => onmessage frame now m
  | Tick now => sweep now m
  end.

(** The record set after a sequence of handler runs, oldest first. *)
Definition run (evs : list TrackerEvent) (m : gmap string Z) : gmap string Z :=
  fold_left (fun m ev => step ev m) evs m.

(** The frame names [N] and nothing else does: a later frame for [N]. *)
Definition arrival_for (N : string) (ev : TrackerEvent) : Prop :=
  match ev with
  | Message (Some d) _ => resolve d = Some N
  | _ => False
  end.

(** The sweep ran at every tick of its 1000 ms period between [lo] and
    [hi]; [phase] is the time of one tick. *)
Definition swept_every_1000 (phase lo hi : Z) (evs : list TrackerEvent) : Prop :=
  forall k : Z, lo <= phase + 1000 * k <= hi -> Tick (phase + 1000 * k) ∈ evs.

End Tracker.

(** ** The correlation loop as a relation

    [loop_returns m ns r]: run on the lower-cased message [m], the loop over
    [ns] ends with [r]; one constructor per [return] of the source, one for
    a turn that falls through, one for the [return null] after the loop. *)

Inductive loop_returns (m : string) : list AgentNode -> option string -> Prop :=
  | returns_null :
      loop_returns m [] None
  | returns_voice n rest :
      rule_voice n m = true ->
      loop_returns m (n :: rest) (Some "voice.run")
  | returns_vision n rest :
      rule_voice n m = false -> rule_vision n m = true ->
      loop_returns m (n :: rest) (Some "vision.analyze")
  | returns_cultural n rest :
      rule_voice n m = false -> rule_vision n m = false ->
      rule_cultural n m = true ->
      loop_returns m (n :: rest) (Some "cultural.intelligence")
  | returns_imagen n rest :
      rule_voice n m = false -> rule_vision n m = false ->
      rule_cultural n m = false -> rule_imagen n m = true ->
      loop_returns m (n :: rest) (Some "imagen.generate")
  | returns_veo n rest :
      rule_voice n m = false -> rule_vision n m = false ->
      rule_cultural n m = false -> rule_imagen n m = false ->
      rule_veo n m = true ->
      loop_returns m (n :: rest) (Some (id n))
  | returns_later n rest r :
      rule_voice n m = false -> rule_vision n m = false ->
      rule_cultural n m = false -> rule_imagen n m = false ->
      rule_veo n m = false ->
      loop_returns m rest r ->
      loop_returns m (n :: rest) r.

Definition correlates (graph : AgentGraph) (message : string) (r : option string) : Prop :=
  loop_returns (Str.toLowerCase message) (nodes graph) r.

(** No rule fires on the node. *)
Definition silent (m : string) (n : AgentNode) : Prop := match_node n m = None.

(** ** Sample data *)

Module Sample.

Definition veo_message : string := "Generating video with veo, please wait".

Definition node_of (i n p : string) (g : Group) : AgentNode :=
  {| id := i; name := n; path := p; methods := [M_POST];
     description := None; group := g; env := None |}.

Definition veo_generate : AgentNode :=
  node_of "veo.generate" "Veo Generate" "/api/veo/generate" generation.
Definition veo_operation : AgentNode :=
  node_of "veo.operation" "Veo Operation" "/api/veo/operation" generation.

(** The two Veo nodes of the static graph, polling first. *)
Definition veo_swapped : AgentGraph :=
  {| nodes := [veo_operation; veo_generate]; edges := [] |}.


(** Code-unit order on byte strings, a consistent comparator. *)
Fixpoint ordinal (a b : string) : Z :=
  match a, b with
  | EmptyString, EmptyString => 0
  | EmptyString, String _ _ => -1
  | String _ _, EmptyString => 1
  | String c r, String d s =>
      if (nat_of_ascii c =? nat_of_ascii d)%nat then ordinal r s
      else Z.of_nat (nat_of_ascii c) - Z.of_nat (nat_of_ascii d)
  end.

Definition A : AgentNode := node_of "a" "Planner" "/api/a" orchestration.
Definition B : AgentNode := node_of "b" "Reader" "/api/b" analysis.
Definition B' : AgentNode := node_of "b2" "Reader" "/api/b2" analysis.
Definition C : AgentNode := node_of "c" "Auditor" "/api/c" analysis.

Definition a_to_b : AgentEdge := {| from := "a"; to := "b"; label := None; optional := None |}.
Definition a_to_z : AgentEdge := {| from := "a"; to := "z"; label := None; optional := None |}.

Definition small : AgentGraph :=
  {| nodes := [B; A; B'; C]; edges := [a_to_b; a_to_z] |}.





Definition explicit (i : string) : ProgressEvent :=
  {| text := None; agentId := Some i; status := None; data := None; ts := 0 |}.

End Sample.

(** ** Two claims as the specification words them *)

(** Correlating the Veo progress text returns the id of the node named
    "Veo Generate", in every graph that has that node. *)
Definition veo_claim_as_stated : Prop :=
  forall (g : AgentGraph) (n : AgentNode),
    n ∈ nodes g ->
    name n = "Veo Generate" -> id n = "veo.generate" -> path n = "/api/veo/generate" ->
    matchAgentByMessage g Sample.veo_message = Some (id n).

(** A record made at [T] is present for queries before [T + 4000] and gone
    for queries at or after [T + 4000], the sweep running every 1000 ms and
    no further frame arriving for [N]; [evs] are the handler runs between
    the arrival and the query at [q]. *)
Definition decay_claim_as_stated : Prop :=
  forall (g : AgentGraph) (N : string) (frame : ProgressEvent) (T q phase : Z)
         (evs : list TrackerEvent) (m0 : gmap string Z),
    resolve g frame = Some N ->
    Forall (fun ev => ~ arrival_for g N ev /\ T <= time_of ev <= q) evs ->
    swept_every_1000 phase T q evs ->
    T <= q ->
    let m := run g (Message (Some frame) T :: evs) m0 in
    (q < T + 4000 -> m !! N = Some T) /\
    (T + 4000 <= q -> m !! N = None).

(** ** Graph canvas (page.tsx, GraphCanvas and the Node and Edge views) *)

(** A node is drawn as a 200 by 96 box with its corner at its position. *)
Definition node_width : Z := 200.
Definition node_height : Z := 96.

(** A number that may be [-Infinity], the value of [Math.max()] of nothing. *)
Inductive number :=
  | NegInfinity
  | Finite (z : Z).

Module Math.

(** [Math.max(...l)] *)
Definition max (l : list Z) : number :=
  fold_right (fun z acc =>
                match acc with
                | NegInfinity => Finite z
                | Finite a => Finite (Z.max z a)
                end) NegInfinity l.

(** [n + k] *)
Definition plus (n : number) (k : Z) : number :=
  match n with
  | NegInfinity => NegInfinity
  | Finite z => Finite (z + k)
  end.

End Math.

(** [Math.max(...positionedNodes.map((n) => n.x)) + 320] and its
    counterpart for the height. *)
Definition canvas_width (layout : Layout) : number :=
  Math.plus (Math.max (map x (positionedNodes layout))) 320.

Definition canvas_height (layout : Layout) : number :=
  Math.plus (Math.max (map y (positionedNodes layout))) 220.

(** [g1] comes before [g2] in the lane order. *)
Definition precedes (g1 g2 : Group) : Prop :=
  exists i j : nat, laneOrder !! i = Some g1 /\ laneOrder !! j = Some g2 /\ (i < j)%nat.

(** *** Hover *)

(** [hoverId], a string or [null]. [onEnter] of a node stores its id;
    [onLeave] clears the hover only if that node is still the hovered one. *)
Inductive HoverEvent :=
  | Enter (n : string)
  | Leave (n : string).

Definition hover_step (h : option string) (ev : HoverEvent) : option string :=
  match ev with
  | Enter n => Some n
  | Leave n =>
      match h with
      | Some i => if String.eqb i n then None else h
      | None => h
      end
  end.

Definition hover_run (evs : list HoverEvent) (h : option string) : option string :=
  fold_left hover_step evs h.

(** [hoverId && ...]: a hover on the empty id counts as none. *)
Definition hovering (h : option string) : option string :=
  match h with
  | Some i => if Str.truthy i then Some i else None
  | None => None
  end.

(** [Boolean(hoverId && hoverId !== n.id)] *)
Definition node_dim (h : option string) (n : PositionedNode) : bool :=
  match hovering h with
  | Some i => negb (String.eqb i (id (node n)))
  | None => false
  end.

(** [hoverId && hoverId !== e.from && hoverId !== e.to] *)
Definition edge_dim (h : option string) (e : PositionedEdge) : bool :=
  match hovering h with
  | Some i => negb (String.eqb i (from (edge e))) && negb (String.eqb i (to (edge e)))
  | None => false
  end.

(** *** Highlight *)

Section Highlight.
(** [activeIds] is a plain object: a name it has no record for is still
    answered by its prototype. [inherited k] says that the prototype answers
    the name [k] with a truthy value. *)
Variable inherited : string -> bool.

(** The truthiness of [active[k]]. *)
Definition lit (active : gmap string Z) (k : string) : bool :=
  match active !! k with
  | Some v => negb (v =? 0)
  | None => inherited k
  end.

(** [Boolean(activeIds[n.id])] *)
Definition node_active (active : gmap string Z) (n : PositionedNode) : bool :=
  lit active (id (node n)).

(** [Boolean(active[e.from] || active[e.to])] *)
Definition isEdgeActive (e : PositionedEdge) (active : gmap string Z) : bool :=
  lit active (from (edge e)) || lit active (to (edge e)).

End Highlight.

(** *** White space at the ends of a string *)



(** * Properties *)

(** ** Correlation Engine *)

Lemma match_loop_app ns1 ns2 m :
  Forall (silent m) ns1 -> match_loop (ns1 ++ ns2) m = match_loop ns2 m.
Proof.
  induction 1 as [|n ns1 Hn _ IH]; simpl; [reflexivity|].
  unfold silent in Hn. rewrite Hn. exact IH.
Qed.

Lemma match_loop_returns ns m : loop_returns m ns (match_loop ns m).
Proof.
  induction ns as [|n rest IH]; simpl; [constructor|].
  unfold match_node.
  destruct (rule_voice n m) eqn:H1; [by constructor|].
  destruct (rule_vision n m) eqn:H2; [by constructor|].
  destruct (rule_cultural n m) eqn:H3; [by constructor|].
  destruct (rule_imagen n m) eqn:H4; [by constructor|].
  destruct (rule_veo n m) eqn:H5; [by constructor|].
  by constructor.
Qed.

Lemma loop_returns_functional m ns r1 r2 :
  loop_returns m ns r1 -> loop_returns m ns r2 -> r1 = r2.
Proof.
  intros Hrun1. revert r2.
  induction Hrun1; intros r2 Hrun2; inversion Hrun2; subst; try congruence; auto.
Qed.

(** C8. The Correlation Engine is deterministic: on a graph and a message
    the loop of [matchAgentByMessage] has exactly one outcome (a node id or
    no match), the one the function computes, so two calls on identical
    inputs return the same result. *)
Theorem correlation_deterministic (graph : AgentGraph) (message : string) :
  correlates graph message (matchAgentByMessage graph message) /\
  (forall r1 r2 : option string,
      correlates graph message r1 -> correlates graph message r2 -> r1 = r2) /\
  (forall (graph' : AgentGraph) (message' : string),
      nodes graph' = nodes graph -> message' = message ->
      matchAgentByMessage graph' message' = matchAgentByMessage graph message).
Proof.
  split; [apply match_loop_returns|]. split.
  - intros r1 r2. apply loop_returns_functional.
  - intros g' m' Hn ->. unfold matchAgentByMessage. by rewrite Hn.
Qed.

Lemma correlation_deterministic_witness :
  correlates AgentsGraph.getAgentGraph Sample.veo_message (Some "veo.generate") /\
  (forall r, correlates AgentsGraph.getAgentGraph Sample.veo_message r ->
             r = Some "veo.generate").
Proof.
  pose proof (correlation_deterministic AgentsGraph.getAgentGraph Sample.veo_message)
    as [Hrun [Hdet _]].
  split.
  - exact Hrun.
  - intros r Hr. exact (Hdet r _ Hr Hrun).
Defined.

(** On the Veo progress text only the Veo rule can fire. *)
Lemma match_node_veo_message n :
  match_node n (Str.toLowerCase Sample.veo_message)
  = if keys_include n "veo" then Some (id n) else None.
Proof.
  unfold match_node, rule_voice, rule_vision, rule_cultural, rule_imagen, rule_veo.
  change (Str.test ["voice"] (Str.toLowerCase Sample.veo_message)) with false.
  change (Str.test_i ["analyz"; "image"] (Str.toLowerCase Sample.veo_message)) with false.
  change (Str.test_i ["cultural"; "culture"] (Str.toLowerCase Sample.veo_message)) with false.
  change (Str.test_i ["image"; "imagen"] (Str.toLowerCase Sample.veo_message)) with false.
  change (Str.test_i ["video"; "veo"; "operation"; "download"]
            (Str.toLowerCase Sample.veo_message)) with true.
  rewrite !andb_false_r, andb_true_r. reflexivity.
Qed.

Lemma match_veo_message_find g :
  matchAgentByMessage g Sample.veo_message
  = id <$> List.find (fun n => keys_include n "veo") (nodes g).
Proof.
  unfold matchAgentByMessage. induction (nodes g) as [|n rest IH]; simpl; [reflexivity|].
  rewrite match_node_veo_message. destruct (keys_include n "veo"); [reflexivity|exact IH].
Qed.

Lemma veo_generate_has_key n : name n = "Veo Generate" -> keys_include n "veo" = true.
Proof. intros Hn. unfold keys_include, keys. rewrite Hn. reflexivity. Qed.

(** C3, as stated, fails: with the polling node listed first the Veo text
    is correlated to ["veo.operation"]. *)
Lemma veo_claim_counterexample : ~ veo_claim_as_stated.
Proof.
  intros H.
  specialize (H Sample.veo_swapped Sample.veo_generate).
  assert (matchAgentByMessage Sample.veo_swapped Sample.veo_message = Some "veo.operation")
    as Hrun by (vm_compute; reflexivity).
  rewrite Hrun in H.
  assert (Some "veo.operation" = Some (id Sample.veo_generate)) as Habs.
  { apply H; [|reflexivity..]. apply list_elem_of_In. simpl. auto. }
  discriminate Habs.
Qed.

(** C3, amended. In a graph with the node named "Veo Generate" (id
    "veo.generate", path "/api/veo/generate") the Veo progress text is
    correlated to the id of the first node, in graph order, whose name, path
    or id contains "veo" ignoring case; that is the "Veo Generate" node's id
    whenever no node listed before it has such a key, as in the static
    graph. *)
Theorem veo_message_first_veo_node (g : AgentGraph) (n : AgentNode) :
  n ∈ nodes g ->
  name n = "Veo Generate" -> id n = "veo.generate" -> path n = "/api/veo/generate" ->
  (exists f : AgentNode,
      List.find (fun k => keys_include k "veo") (nodes g) = Some f /\
      f ∈ nodes g /\
      matchAgentByMessage g Sample.veo_message = Some (id f)) /\
  (forall pre post : list AgentNode,
      nodes g = pre ++ n :: post ->
      Forall (fun k => keys_include k "veo" = false) pre ->
      matchAgentByMessage g Sample.veo_message = Some "veo.generate") /\
  matchAgentByMessage AgentsGraph.getAgentGraph Sample.veo_message = Some "veo.generate".
Proof.
  intros Hin Hname Hid Hpath. split; [|split].
  - destruct (List.find (fun k => keys_include k "veo") (nodes g)) as [f|] eqn:Hf.
    + exists f. split; [reflexivity|]. split.
      * apply list_elem_of_In. by apply find_some in Hf as [? _].
      * rewrite match_veo_message_find, Hf. reflexivity.
    + exfalso. apply list_elem_of_In in Hin.
      pose proof (find_none _ _ Hf n Hin) as Hno. simpl in Hno.
      rewrite (veo_generate_has_key n Hname) in Hno. discriminate.
  - intros pre post Hsplit Hpre.
    unfold matchAgentByMessage. rewrite Hsplit, match_loop_app.
    + simpl. rewrite match_node_veo_message, (veo_generate_has_key n Hname), Hid.
      reflexivity.
    + eapply Forall_impl; [exact Hpre|]. intros k Hk. unfold silent.
      rewrite match_node_veo_message. simpl in Hk. rewrite Hk. reflexivity.
  - vm_compute. reflexivity.
Qed.

Lemma veo_message_first_veo_node_witness :
  matchAgentByMessage Sample.veo_swapped Sample.veo_message = Some "veo.operation" /\
  matchAgentByMessage AgentsGraph.getAgentGraph Sample.veo_message = Some "veo.generate".
Proof.
  assert (Sample.veo_generate ∈ nodes Sample.veo_swapped) as Hin
    by (apply list_elem_of_In; simpl; auto).
  pose proof (veo_message_first_veo_node Sample.veo_swapped Sample.veo_generate Hin
                eq_refl eq_refl eq_refl) as [[f [Hf [_ Hm]]] [_ Hb]].
  split; [|exact Hb].
  rewrite Hm. vm_compute in Hf. injection Hf as <-. reflexivity.
Defined.




(** ** Sorting *)

Section SortFacts.
Context {A : Type} (cmp : A -> A -> Z).

Lemma sort_insert_perm a l : Permutation (sort_insert cmp a l) (a :: l).
Proof.
  induction l as [|b r IH]; simpl; [reflexivity|].
  destruct (cmp a b <=? 0); [reflexivity|].
  rewrite IH. apply perm_swap.
Qed.

Lemma sort_perm l : Permutation (sort cmp l) l.
Proof.
  induction l as [|a r IH]; simpl; [reflexivity|].
  rewrite sort_insert_perm. by apply perm_skip.
Qed.

Lemma sort_length l : length (sort cmp l) = length l.
Proof. apply Permutation_length, sort_perm. Qed.

Hypothesis consistent : Consistent cmp.

Lemma tied_refl a : tied cmp a a.
Proof.
  unfold tied. pose proof (cmp_swap cmp consistent a a) as [H1 H2].
  destruct (Z.lt_trichotomy (cmp a a) 0) as [Hlt|[Heq|Hgt]]; [|exact Heq|].
  - specialize (H1 Hlt). lia.
  - assert (0 < cmp a a) as Hpos by lia. specialize (H2 Hpos). lia.
Qed.

Lemma tied_sym a b : tied cmp a b -> tied cmp b a.
Proof.
  unfold tied. intros Hab.
  pose proof (cmp_swap cmp consistent a b) as [_ H1].
  pose proof (cmp_swap cmp consistent b a) as [H2 _].
  destruct (Z.lt_trichotomy (cmp b a) 0) as [Hlt|[Heq|Hgt]]; [|exact Heq|].
  - specialize (H2 Hlt). lia.
  - assert (0 < cmp b a) as Hpos by lia. specialize (H1 Hpos). lia.
Qed.

Lemma tied_trans a b c : tied cmp a b -> tied cmp b c -> tied cmp a c.
Proof.
  intros Hab Hbc.
  pose proof (tied_sym _ _ Hab) as Hba. pose proof (tied_sym _ _ Hbc) as Hcb.
  unfold tied in *.
  assert (cmp a c <= 0) as H1 by (apply (cmp_trans cmp consistent a b c); lia).
  assert (cmp c a <= 0) as H2 by (apply (cmp_trans cmp consistent c b a); lia).
  pose proof (cmp_swap cmp consistent a c) as [H3 _].
  destruct (Z.lt_trichotomy (cmp a c) 0) as [Hlt|[Heq|Hgt]]; [|exact Heq|lia].
  specialize (H3 Hlt). lia.
Qed.

Lemma ordered_total a b : ordered cmp a b \/ ordered cmp b a.
Proof.
  unfold ordered. destruct (Z_le_gt_dec (cmp a b) 0) as [Hle|Hgt]; [by left|right].
  pose proof (cmp_swap cmp consistent b a) as [_ H]. assert (0 < cmp a b) as Hpos by lia.
  specialize (H Hpos). lia.
Qed.

Lemma sort_insert_sorted a l :
  StronglySorted (ordered cmp) l -> StronglySorted (ordered cmp) (sort_insert cmp a l).
Proof.
  induction 1 as [|b r Hr IH Hb]; simpl.
  - repeat constructor.
  - destruct (cmp a b <=? 0) eqn:Hab.
    + apply Z.leb_le in Hab. constructor; [by constructor|].
      constructor; [exact Hab|].
      eapply Forall_impl; [exact Hb|]. intros c Hbc. simpl in Hbc.
      exact (cmp_trans cmp consistent a b c Hab Hbc).
    + apply Z.leb_gt in Hab. constructor; [exact IH|].
      rewrite (sort_insert_perm a r). constructor; [|exact Hb].
      destruct (ordered_total b a) as [Hle|Hle]; [exact Hle|unfold ordered in Hle; lia].
Qed.

Lemma sort_sorted l : StronglySorted (ordered cmp) (sort cmp l).
Proof.
  induction l as [|a r IH]; simpl; [constructor|]. by apply sort_insert_sorted.
Qed.

(** Stability: the elements that tie with [a0] keep their input order. *)
Lemma sort_insert_stable (a0 a : A) l :
  filter (tied cmp a0) (sort_insert cmp a l) = filter (tied cmp a0) (a :: l).
Proof.
  induction l as [|b r IH]; simpl; [reflexivity|].
  destruct (cmp a b <=? 0) eqn:Hab; [reflexivity|].
  apply Z.leb_gt in Hab.
  rewrite (filter_cons _ b (sort_insert cmp a r)), IH.
  rewrite !filter_cons.
  destruct (decide (tied cmp a0 a)) as [Ha|Ha]; destruct (decide (tied cmp a0 b)) as [Hb|Hb];
    try reflexivity.
  exfalso. pose proof (tied_trans _ _ _ (tied_sym _ _ Ha) Hb) as Htie.
  unfold tied in Htie. lia.
Qed.

Lemma sort_stable (a0 : A) l : filter (tied cmp a0) (sort cmp l) = filter (tied cmp a0) l.
Proof.
  induction l as [|a r IH]; simpl; [reflexivity|].
  rewrite sort_insert_stable, !filter_cons, IH. reflexivity.
Qed.

Lemma ordered_tied a b : ordered cmp a b -> ordered cmp b a -> tied cmp a b.
Proof.
  unfold ordered, tied. intros Hab Hba.
  pose proof (cmp_swap cmp consistent a b) as [Hswap _].
  destruct (Z.lt_trichotomy (cmp a b) 0) as [Hlt|[Heq|Hgt]]; [|exact Heq|lia].
  specialize (Hswap Hlt). lia.
Qed.

Lemma sorted_head_least a r b :
  StronglySorted (ordered cmp) (a :: r) -> b ∈ a :: r -> ordered cmp a b.
Proof.
  intros Hs Hb. apply StronglySorted_inv in Hs as [_ Hall].
  apply elem_of_cons in Hb as [->|Hb].
  - unfold ordered. pose proof (tied_refl a) as Ht. unfold tied in Ht. lia.
  - rewrite Forall_forall in Hall. by apply Hall.
Qed.

(** A sorted, stable rearrangement is determined by the input. *)
Lemma sorted_stable_unique l1 l2 :
  Permutation l1 l2 ->
  StronglySorted (ordered cmp) l1 -> StronglySorted (ordered cmp) l2 ->
  (forall a0, filter (tied cmp a0) l1 = filter (tied cmp a0) l2) ->
  l1 = l2.
Proof.
  revert l2. induction l1 as [|a r1 IH]; intros l2 Hperm Hs1 Hs2 Hf.
  - by apply Permutation_nil in Hperm.
  - destruct l2 as [|b r2].
    { symmetry in Hperm. by apply Permutation_nil in Hperm. }
    assert (tied cmp a b) as Hab.
    { apply ordered_tied.
      - apply (sorted_head_least a r1); [exact Hs1|].
        rewrite Hperm. apply elem_of_cons. by left.
      - apply (sorted_head_least b r2); [exact Hs2|].
        rewrite <- Hperm. apply elem_of_cons. by left. }
    pose proof (Hf a) as Hfa. rewrite !filter_cons in Hfa.
    rewrite decide_True in Hfa by apply tied_refl.
    rewrite decide_True in Hfa by exact Hab.
    injection Hfa as <- _. f_equal.
    apply IH.
    + by apply Permutation_cons_inv in Hperm.
    + by apply StronglySorted_inv in Hs1 as [? _].
    + by apply StronglySorted_inv in Hs2 as [? _].
    + intros a0. specialize (Hf a0). rewrite !filter_cons in Hf.
      destruct (decide (tied cmp a0 a)); [by injection Hf|exact Hf].
Qed.

(** Every stable sort agrees with [sort]. *)
Lemma stable_sort_unique l l' :
  Permutation l' l ->
  StronglySorted (ordered cmp) l' ->
  (forall a0, filter (tied cmp a0) l' = filter (tied cmp a0) l) ->
  l' = sort cmp l.
Proof.
  intros Hperm Hs Hf. apply sorted_stable_unique.
  - by rewrite sort_perm.
  - exact Hs.
  - apply sort_sorted.
  - intros a0. by rewrite sort_stable.
Qed.

End SortFacts.

(** ** Layout Engine *)

Lemma laneX_values :
  laneX orchestration = 120 /\ laneX analysis = 380 /\ laneX generation = 640 /\
  laneX media = 900 /\ laneX progress = 1160.
Proof. repeat split; reflexivity. Qed.

Lemma laneOrder_complete g : g ∈ laneOrder.
Proof. unfold laneOrder. destruct g; set_solver. Qed.

Lemma laneOrder_NoDup : NoDup laneOrder.
Proof. apply (bool_decide_unpack (NoDup laneOrder)). vm_compute. exact I. Qed.

Lemma filter_all {A} (P : A -> Prop) `{!forall a, Decision (P a)} (l : list A) :
  Forall P l -> filter P l = l.
Proof.
  induction 1 as [|a l Ha _ IH]; [reflexivity|].
  rewrite filter_cons, decide_True by exact Ha. by rewrite IH.
Qed.

Lemma filter_none {A} (P : A -> Prop) `{!forall a, Decision (P a)} (l : list A) :
  Forall (fun a => ~ P a) l -> filter P l = [].
Proof.
  induction 1 as [|a l Ha _ IH]; [reflexivity|].
  rewrite filter_cons, decide_False by exact Ha. exact IH.
Qed.

Section LayoutFacts.
Variable localeCompare : string -> string -> Z.

Lemma lane_lookup g ns i p :
  lane localeCompare g ns !! i = Some p ->
  sort (by_name localeCompare) (bucket g ns) !! i = Some (node p) /\
  x p = laneX g /\ y p = 120 + Z.of_nat i * 160.
Proof.
  unfold lane. rewrite list_lookup_imap. intros Hp.
  destruct (sort (by_name localeCompare) (bucket g ns) !! i) as [n|]; simpl in Hp; [|discriminate].
  injection Hp as <-. simpl. auto.
Qed.

Lemma lane_length g ns : length (lane localeCompare g ns) = length (bucket g ns).
Proof. unfold lane. by rewrite length_imap, sort_length. Qed.

Lemma lane_nodes g ns : map node (lane localeCompare g ns) = sort (by_name localeCompare) (bucket g ns).
Proof.
  apply list_eq. intros i.
  change (map node (lane localeCompare g ns)) with (node <$> lane localeCompare g ns).
  rewrite list_lookup_fmap. unfold lane. rewrite list_lookup_imap.
  by destruct (sort (by_name localeCompare) (bucket g ns) !! i).
Qed.

Lemma lane_elem g ns p :
  p ∈ lane localeCompare g ns -> node p ∈ ns /\ group (node p) = g /\ x p = laneX g.
Proof.
  intros Hp. apply list_elem_of_lookup in Hp as [i Hi].
  apply lane_lookup in Hi as [Hn [Hx _]].
  assert (node p ∈ bucket g ns) as Hb.
  { rewrite <- (sort_perm (by_name localeCompare) (bucket g ns)).
    apply list_elem_of_lookup. eauto. }
  apply list_elem_of_filter in Hb as [Hg Hin]. auto.
Qed.

Lemma place_elem ns p : p ∈ place localeCompare ns <-> exists g, p ∈ lane localeCompare g ns.
Proof.
  unfold place. rewrite list_elem_of_In, in_flat_map. split.
  - intros [g [_ Hp]]. exists g. by apply list_elem_of_In.
  - intros [g Hp]. exists g. split; [|by apply list_elem_of_In].
    apply list_elem_of_In, laneOrder_complete.
Qed.

Lemma place_covers ns n : n ∈ ns -> exists p, p ∈ place localeCompare ns /\ node p = n.
Proof.
  intros Hn.
  assert (n ∈ map node (lane localeCompare (group n) ns)) as Hin.
  { rewrite lane_nodes, (sort_perm (by_name localeCompare)). apply list_elem_of_filter. auto. }
  apply list_elem_of_In, in_map_iff in Hin as [p [Hp Hin]].
  exists p. split; [|exact Hp]. apply place_elem. exists (group n).
  by apply list_elem_of_In.
Qed.

Lemma find_Some ps i a :
  find ps i = Some a -> a ∈ ps /\ id (node a) = i.
Proof.
  unfold find. intros H. apply find_some in H as [Hin Heq].
  split; [by apply list_elem_of_In|]. by apply String.eqb_eq.
Qed.

Lemma find_None ps i : find ps i = None -> forall p, p ∈ ps -> id (node p) <> i.
Proof.
  unfold find. intros H p Hp Heq. apply list_elem_of_In in Hp.
  pose proof (find_none _ _ H p Hp) as Hno. simpl in Hno.
  apply String.eqb_neq in Hno. contradiction.
Qed.

(** An id resolves exactly when some node of the graph carries it. *)
Lemma find_resolves ns i : is_Some (find (place localeCompare ns) i) <-> i ∈ map id ns.
Proof.
  split.
  - intros [a Ha]. apply find_Some in Ha as [Hin Hid].
    apply place_elem in Hin as [g Hg]. apply lane_elem in Hg as [Hn _].
    apply list_elem_of_In, in_map_iff. exists (node a).
    split; [exact Hid|by apply list_elem_of_In].
  - intros Hi. apply list_elem_of_In, in_map_iff in Hi as [n [Hid Hn]].
    apply list_elem_of_In, place_covers in Hn as [p [Hp Hnode]].
    destruct (find (place localeCompare ns) i) as [a|] eqn:Hf; [by eexists|].
    exfalso. apply (find_None _ _ Hf p Hp). by rewrite Hnode.
Qed.

Lemma place_edge_resolved ns e :
  resolved ns e ->
  exists a b, find (place localeCompare ns) (from e) = Some a /\ find (place localeCompare ns) (to e) = Some b /\
    place_edge (place localeCompare ns) e =
      [ {| edge := e; x1 := x a + 200; y1 := y a + 48; x2 := x b; y2 := y b + 48 |} ].
Proof.
  intros [Hf Ht]. apply find_resolves in Hf as [a Ha]. apply find_resolves in Ht as [b Hb].
  exists a, b. unfold place_edge. by rewrite Ha, Hb.
Qed.

Lemma place_edge_dangling ns e : ~ resolved ns e -> place_edge (place localeCompare ns) e = [].
Proof.
  intros Hno. unfold place_edge.
  destruct (find (place localeCompare ns) (from e)) as [a|] eqn:Ha; [|reflexivity].
  destruct (find (place localeCompare ns) (to e)) as [b|] eqn:Hb; [|reflexivity].
  exfalso. apply Hno. split; apply find_resolves; by eexists.
Qed.

(** The output edges are the input edges with both ends resolved, in
    input order. *)
Lemma layout_edges_filter (g : AgentGraph) :
  map edge (positionedEdges (computeLayout localeCompare g))
  = filter (resolved (nodes g)) (edges g).
Proof.
  unfold computeLayout. simpl. induction (edges g) as [|e es IH]; [reflexivity|].
  simpl. rewrite map_app, IH, filter_cons.
  destruct (decide (resolved (nodes g) e)) as [Hr|Hr].
  - destruct (place_edge_resolved _ _ Hr) as [a [b [_ [_ ->]]]]. reflexivity.
  - by rewrite (place_edge_dangling _ _ Hr).
Qed.

Lemma layout_edge_geometry (g : AgentGraph) (pe : PositionedEdge) :
  pe ∈ positionedEdges (computeLayout localeCompare g) ->
  edge pe ∈ edges g /\
  exists a b,
    find (place localeCompare (nodes g)) (from (edge pe)) = Some a /\
    find (place localeCompare (nodes g)) (to (edge pe)) = Some b /\
    x1 pe = x a + 200 /\ y1 pe = y a + 48 /\ x2 pe = x b /\ y2 pe = y b + 48.
Proof.
  unfold computeLayout. simpl. rewrite list_elem_of_In, in_flat_map.
  intros [e [He Hpe]]. unfold place_edge in Hpe.
  destruct (find (place localeCompare (nodes g)) (from e)) as [a|] eqn:Ha; [|destruct Hpe].
  destruct (find (place localeCompare (nodes g)) (to e)) as [b|] eqn:Hb; [|destruct Hpe].
  destruct Hpe as [<-|[]]. simpl. split; [by apply list_elem_of_In|].
  exists a, b. auto 10.
Qed.

End LayoutFacts.

Section LaneFacts.
Variable localeCompare : string -> string -> Z.

Lemma lane_group g ns :
  Forall (fun p => group (node p) = g) (lane localeCompare g ns).
Proof. apply Forall_forall. intros p Hp. by apply lane_elem in Hp as [_ [Hg _]]. Qed.

(** The positioned nodes of one group are that group's lane. *)
Lemma lanes_filter g ns gs :
  NoDup gs ->
  filter (fun p => group (node p) = g) (flat_map (fun g' => lane localeCompare g' ns) gs)
  = if decide (g ∈ gs) then lane localeCompare g ns else [].
Proof.
  induction 1 as [|g' gs Hnotin Hnd IH]; simpl; [reflexivity|].
  rewrite filter_app, IH. destruct (decide (g = g')) as [->|Hne].
  - rewrite (filter_all _ _ (lane_group g' ns)).
    rewrite decide_False by exact Hnotin. rewrite app_nil_r.
    rewrite decide_True by (apply elem_of_cons; by left). reflexivity.
  - rewrite filter_none.
    + simpl. destruct (decide (g ∈ gs)) as [Hin|Hout].
      * rewrite decide_True by (apply elem_of_cons; by right). reflexivity.
      * rewrite decide_False; [reflexivity|].
        intros [Heq|Hin]%elem_of_cons; [by apply Hne|by apply Hout].
    + eapply Forall_impl; [apply lane_group|]. simpl. intros p -> Heq. by apply Hne.
Qed.

Lemma place_filter g ns :
  filter (fun p => group (node p) = g) (place localeCompare ns) = lane localeCompare g ns.
Proof.
  unfold place. rewrite lanes_filter by apply laneOrder_NoDup.
  rewrite decide_True by apply laneOrder_complete. reflexivity.
Qed.

Lemma lane_slots_NoDup g ns : NoDup (map slot (lane localeCompare g ns)).
Proof.
  change (map slot (lane localeCompare g ns)) with (slot <$> lane localeCompare g ns).
  apply NoDup_alt. intros i j s. rewrite !list_lookup_fmap.
  destruct (lane localeCompare g ns !! i) as [p|] eqn:Hp; [|discriminate].
  destruct (lane localeCompare g ns !! j) as [q|] eqn:Hq; [|discriminate].
  simpl. intros Hs1 Hs2. rewrite <- Hs1 in Hs2. injection Hs2 as _ Hy.
  apply lane_lookup in Hp as [_ [_ Hyp]]. apply lane_lookup in Hq as [_ [_ Hyq]].
  lia.
Qed.

Lemma lanes_slots_NoDup ns gs :
  NoDup gs -> NoDup (map slot (flat_map (fun g => lane localeCompare g ns) gs)).
Proof.
  induction 1 as [|g gs Hnotin Hnd IH]; simpl; [constructor|].
  rewrite map_app. apply NoDup_app. split; [apply lane_slots_NoDup|]. split; [|exact IH].
  intros s Hs Hs'.
  apply list_elem_of_In, in_map_iff in Hs as [p [<- Hp]].
  apply list_elem_of_In, in_map_iff in Hs' as [q [Heq Hq]].
  apply list_elem_of_In, lane_elem in Hp as [_ [Hgp _]].
  apply in_flat_map in Hq as [g' [Hg' Hq]].
  apply list_elem_of_In, lane_elem in Hq as [_ [Hgq _]].
  unfold slot in Heq. injection Heq as Hg _.
  apply Hnotin. apply list_elem_of_In. congruence.
Qed.

Lemma place_slots_NoDup ns : NoDup (map slot (place localeCompare ns)).
Proof. apply lanes_slots_NoDup, laneOrder_NoDup. Qed.

Lemma find_app_l (ps qs : list PositionedNode) i p :
  p ∈ ps -> id (node p) = i -> find (ps ++ qs) i = find ps i.
Proof.
  unfold find. induction ps as [|a ps IH]; intros Hp Hid.
  - by apply elem_of_nil in Hp.
  - simpl. destruct (String.eqb (id (node a)) i) eqn:Ha; [reflexivity|].
    apply IH; [|exact Hid]. apply elem_of_cons in Hp as [->|Hp]; [|exact Hp].
    apply String.eqb_neq in Ha. contradiction.
Qed.

(** An id carried by a node of the first lane resolves into that lane. *)
Lemma find_orchestration ns n :
  n ∈ ns -> group n = orchestration ->
  exists a, find (place localeCompare ns) (id n) = Some a /\ x a = laneX orchestration.
Proof.
  intros Hn Hg.
  assert (n ∈ map node (lane localeCompare orchestration ns)) as Hin.
  { rewrite lane_nodes, (sort_perm (by_name localeCompare)).
    apply list_elem_of_filter. auto. }
  apply list_elem_of_In, in_map_iff in Hin as [p [Hp Hin]]. apply list_elem_of_In in Hin.
  unfold place. simpl. rewrite (find_app_l _ _ (id n) p Hin) by (by rewrite Hp).
  destruct (find (lane localeCompare orchestration ns) (id n)) as [a|] eqn:Hf.
  - exists a. split; [reflexivity|]. apply find_Some in Hf as [Ha _].
    by apply lane_elem in Ha as [_ [_ Hx]].
  - exfalso. apply (find_None _ _ Hf p Hin). by rewrite Hp.
Qed.

Lemma unique_id ns n1 n2 :
  NoDup (map id ns) -> n1 ∈ ns -> n2 ∈ ns -> id n1 = id n2 -> n1 = n2.
Proof.
  induction ns as [|n ns IH]; simpl; intros Hnd H1 H2 Hid.
  - by apply elem_of_nil in H1.
  - apply NoDup_cons in Hnd as [Hnotin Hnd].
    apply elem_of_cons in H1 as [->|H1]; apply elem_of_cons in H2 as [->|H2];
      [reflexivity| | |by apply IH].
    + exfalso. apply Hnotin. rewrite Hid. apply list_elem_of_In, in_map.
      by apply list_elem_of_In.
    + exfalso. apply Hnotin. rewrite <- Hid. apply list_elem_of_In, in_map.
      by apply list_elem_of_In.
Qed.

(** With unique ids an id resolves to the node that carries it. *)
Lemma find_unique ns n :
  NoDup (map id ns) -> n ∈ ns ->
  exists b, find (place localeCompare ns) (id n) = Some b /\ node b = n /\
            x b = laneX (group n).
Proof.
  intros Hnd Hn.
  assert (is_Some (find (place localeCompare ns) (id n))) as [b Hb].
  { apply find_resolves. apply list_elem_of_In, in_map. by apply list_elem_of_In. }
  exists b. split; [exact Hb|]. apply find_Some in Hb as [Hin Hid].
  apply place_elem in Hin as [g Hg]. apply lane_elem in Hg as [Hnode [Hgr Hx]].
  assert (node b = n) as <- by (by apply (unique_id ns)).
  split; [reflexivity|]. by rewrite Hgr.
Qed.

End LaneFacts.

Lemma ordinal_flip a b :
  (Sample.ordinal a b < 0 <-> 0 < Sample.ordinal b a) /\
  (Sample.ordinal a b = 0 <-> Sample.ordinal b a = 0).
Proof.
  revert b. induction a as [|c r IH]; intros [|d s]; simpl; try lia.
  rewrite (Nat.eqb_sym (nat_of_ascii d) (nat_of_ascii c)).
  destruct (Nat.eqb_spec (nat_of_ascii c) (nat_of_ascii d)) as [Heq|Hne]; [apply IH|lia].
Qed.

Lemma ordinal_trans a b c :
  (Sample.ordinal a b <= 0 -> Sample.ordinal b c <= 0 -> Sample.ordinal a c <= 0) /\
  (Sample.ordinal a b <= 0 -> Sample.ordinal b c < 0 -> Sample.ordinal a c < 0) /\
  (Sample.ordinal a b < 0 -> Sample.ordinal b c <= 0 -> Sample.ordinal a c < 0).
Proof.
  revert b c. induction a as [|x r IH]; intros [|y s] [|z t]; simpl; try lia.
  destruct (Nat.eqb_spec (nat_of_ascii x) (nat_of_ascii y)) as [Hxy|Hxy];
    destruct (Nat.eqb_spec (nat_of_ascii y) (nat_of_ascii z)) as [Hyz|Hyz];
    destruct (Nat.eqb_spec (nat_of_ascii x) (nat_of_ascii z)) as [Hxz|Hxz];
    try lia.
  apply IH.
Qed.

Lemma ordinal_consistent : Consistent Sample.ordinal.
Proof.
  split.
  - intros a b. apply ordinal_flip.
  - intros a b c. apply ordinal_trans.
Qed.

Lemma by_name_consistent localeCompare :
  Consistent localeCompare -> Consistent (by_name localeCompare).
Proof.
  intros [Hswap Htrans]. split; unfold by_name.
  - intros a b. apply Hswap.
  - intros a b c. apply Htrans.
Qed.

(** C4. Every edge with an end that is no node's id is left out of the
    layout's edge list, and nothing fails: the layout is a total function
    and its edge list is the input edge list restricted, in order, to the
    edges with both ends resolved. Each edge that is kept runs from the
    right side of the node its [from] resolves to, to the left side of the
    node its [to] resolves to. *)
Theorem layout_drops_dangling_edges (localeCompare : string -> string -> Z)
    (g : AgentGraph) :
  let out := computeLayout localeCompare g in
  map edge (positionedEdges out) = filter (resolved (nodes g)) (edges g) /\
  (forall e : AgentEdge,
      from e ∉ node_ids g \/ to e ∉ node_ids g ->
      forall pe, pe ∈ positionedEdges out -> edge pe <> e) /\
  (forall e : AgentEdge,
      e ∈ edges g -> from e ∈ node_ids g -> to e ∈ node_ids g ->
      exists pe, pe ∈ positionedEdges out /\ edge pe = e) /\
  (forall pe : PositionedEdge,
      pe ∈ positionedEdges out ->
      exists a b : PositionedNode,
        a ∈ positionedNodes out /\ id (node a) = from (edge pe) /\
        find (positionedNodes out) (from (edge pe)) = Some a /\
        b ∈ positionedNodes out /\ id (node b) = to (edge pe) /\
        find (positionedNodes out) (to (edge pe)) = Some b /\
        x1 pe = x a + 200 /\ y1 pe = y a + 48 /\ x2 pe = x b /\ y2 pe = y b + 48).
Proof.
  intros out. pose proof (layout_edges_filter localeCompare g) as Hfilter. fold out in Hfilter.
  split; [exact Hfilter|]. split; [|split].
  - intros e Hdangling pe Hpe <-.
    assert (edge pe ∈ filter (resolved (nodes g)) (edges g)) as Hin.
    { rewrite <- Hfilter. apply list_elem_of_In, in_map. by apply list_elem_of_In. }
    apply list_elem_of_filter in Hin as [[Hf Ht] _]. unfold node_ids in Hdangling. tauto.
  - intros e He Hf Ht.
    assert (e ∈ map edge (positionedEdges out)) as Hin.
    { rewrite Hfilter. apply list_elem_of_filter. split; [by split|exact He]. }
    apply list_elem_of_In, in_map_iff in Hin as [pe [Hpe Hin]].
    exists pe. split; [by apply list_elem_of_In|exact Hpe].
  - intros pe Hpe.
    destruct (layout_edge_geometry localeCompare g pe Hpe) as [_ [a [b Hab]]].
    destruct Hab as [Ha [Hb [Hx1 [Hy1 [Hx2 Hy2]]]]].
    exists a, b. subst out. simpl.
    destruct (find_Some _ _ _ Ha) as [Hina Hida].
    destruct (find_Some _ _ _ Hb) as [Hinb Hidb].
    auto 12.
Qed.

Lemma layout_drops_dangling_edges_witness :
  map edge (positionedEdges (computeLayout Sample.ordinal Sample.small)) = [Sample.a_to_b] /\
  (forall pe, pe ∈ positionedEdges (computeLayout Sample.ordinal Sample.small) ->
              edge pe <> Sample.a_to_z).
Proof.
  pose proof (layout_drops_dangling_edges Sample.ordinal Sample.small) as [Hout [Hdrop _]].
  split.
  - vm_compute. reflexivity.
  - apply Hdrop. right. apply (bool_decide_eq_false_1 ("z" ∈ node_ids Sample.small)).
    vm_compute. reflexivity.
Defined.

(** C9. In the static graph every edge starts and ends at the id of a
    listed node, so the layout of the static graph keeps every edge. *)
Theorem static_graph_edges_resolve :
  Forall (fun e => from e ∈ node_ids AgentsGraph.getAgentGraph /\
                   to e ∈ node_ids AgentsGraph.getAgentGraph)
         (edges AgentsGraph.getAgentGraph) /\
  (forall localeCompare : string -> string -> Z,
      map edge (positionedEdges (computeLayout localeCompare AgentsGraph.getAgentGraph))
      = edges AgentsGraph.getAgentGraph).
Proof.
  assert (Forall (resolved (nodes AgentsGraph.getAgentGraph))
                 (edges AgentsGraph.getAgentGraph)) as Hall.
  { apply (bool_decide_unpack (Forall _ _)). vm_compute. exact I. }
  split; [exact Hall|].
  intros localeCompare. rewrite layout_edges_filter. by apply filter_all.
Qed.

(** C5. Within each lane the nodes stand in the order of their display
    names under [localeCompare], nodes whose names compare equal keeping
    their input order; the node at sorted index [i] gets the lane's
    horizontal offset and the vertical offset [120 + 160 * i], which grows
    strictly with the index in steps of 160, so no two nodes of one lane
    share a vertical offset. *)
Theorem lane_sorted_and_spaced (localeCompare : string -> string -> Z)
    (consistent : Consistent localeCompare) (g : AgentGraph) (gr : Group) :
  let placed := positionedNodes (computeLayout localeCompare g) in
  let lane_out := filter (fun p => group (node p) = gr) placed in
  let lane_in := filter (fun n => group n = gr) (nodes g) in
  Permutation (map node lane_out) lane_in /\
  StronglySorted (fun a b => localeCompare (name a) (name b) <= 0) (map node lane_out) /\
  (forall a0 : AgentNode,
      filter (fun n => localeCompare (name a0) (name n) = 0) (map node lane_out)
      = filter (fun n => localeCompare (name a0) (name n) = 0) lane_in) /\
  (forall (i : nat) (p : PositionedNode),
      lane_out !! i = Some p -> x p = laneX gr /\ y p = 120 + 160 * Z.of_nat i) /\
  (forall (i j : nat) (p q : PositionedNode),
      lane_out !! i = Some p -> lane_out !! j = Some q ->
      (i < j)%nat -> y p < y q /\ y q - y p = 160 * (Z.of_nat j - Z.of_nat i)) /\
  (forall (i j : nat) (p q : PositionedNode),
      placed !! i = Some p -> placed !! j = Some q -> i <> j ->
      group (node p) = group (node q) -> y p <> y q).
Proof.
  intros placed lane_out lane_in.
  assert (lane_out = lane localeCompare gr (nodes g)) as Hlane
    by apply place_filter.
  assert (map node lane_out = sort (by_name localeCompare) lane_in) as Hnodes
    by (rewrite Hlane; apply lane_nodes).
  pose proof (by_name_consistent localeCompare consistent) as Hc.
  split; [|split; [|split; [|split; [|split]]]].
  - rewrite Hnodes. apply sort_perm.
  - rewrite Hnodes. exact (sort_sorted (by_name localeCompare) Hc lane_in).
  - intros a0. rewrite Hnodes.
    exact (sort_stable (by_name localeCompare) Hc a0 lane_in).
  - intros i p Hp. rewrite Hlane in Hp. apply lane_lookup in Hp as [_ [Hx Hy]].
    split; [exact Hx|lia].
  - intros i j p q Hp Hq Hij. rewrite Hlane in Hp, Hq.
    apply lane_lookup in Hp as [_ [_ Hyp]]. apply lane_lookup in Hq as [_ [_ Hyq]].
    lia.
  - intros i j p q Hp Hq Hij Hg Hy.
    change (place localeCompare (nodes g) !! i = Some p) in Hp.
    change (place localeCompare (nodes g) !! j = Some q) in Hq.
    apply Hij. apply (NoDup_lookup _ i j (slot p) (place_slots_NoDup localeCompare (nodes g))).
    + change (map slot (place localeCompare (nodes g)))
        with (slot <$> place localeCompare (nodes g)).
      by rewrite list_lookup_fmap, Hp.
    + change (map slot (place localeCompare (nodes g)))
        with (slot <$> place localeCompare (nodes g)).
      rewrite list_lookup_fmap, Hq. simpl.
      unfold slot. by rewrite Hg, Hy.
Qed.

Lemma lane_sorted_and_spaced_witness :
  map (fun p => (id (node p), y p))
      (filter (fun p => group (node p) = analysis)
              (positionedNodes (computeLayout Sample.ordinal Sample.small)))
  = [("c", 120); ("b", 280); ("b2", 440)] /\
  StronglySorted (fun a b => Sample.ordinal (name a) (name b) <= 0)
      (map node (filter (fun p => group (node p) = analysis)
                        (positionedNodes (computeLayout Sample.ordinal Sample.small)))).
Proof.
  split; [vm_compute; reflexivity|].
  exact (proj1 (proj2 (lane_sorted_and_spaced Sample.ordinal ordinal_consistent
                                              Sample.small analysis))).
Defined.

(** C6. When a graph has a node [A] of group orchestration, a node [B] of
    group analysis and an edge from [A] to [B], the lane of [A] lies left
    of the lane of [B] (the lanes stand in the order orchestration,
    analysis, generation, media, progress, 260 apart), the edge is drawn,
    and it starts at an x-coordinate no greater than the offset of [B]'s
    lane; that offset is the edge's end x-coordinate, node ids being
    unique. *)
Theorem orchestration_left_of_analysis (localeCompare : string -> string -> Z)
    (g : AgentGraph) (A B : AgentNode) (e : AgentEdge) :
  A ∈ nodes g -> B ∈ nodes g ->
  group A = orchestration -> group B = analysis ->
  e ∈ edges g -> from e = id A -> to e = id B ->
  let out := computeLayout localeCompare g in
  map laneX laneOrder = [120; 380; 640; 900; 1160] /\
  laneX (group A) < laneX (group B) /\
  (exists pe, pe ∈ positionedEdges out /\ edge pe = e) /\
  (forall pe, pe ∈ positionedEdges out -> edge pe = e ->
      x1 pe = laneX (group A) + 200 /\
      x1 pe <= laneX (group B) /\
      (NoDup (node_ids g) -> x2 pe = laneX (group B) /\ x1 pe <= x2 pe)).
Proof.
  intros HA HB HgA HgB He Hfrom Hto out.
  split; [reflexivity|]. split; [rewrite HgA, HgB; reflexivity|].
  assert (from e ∈ node_ids g) as Hf.
  { rewrite Hfrom. apply list_elem_of_In, in_map. by apply list_elem_of_In. }
  assert (to e ∈ node_ids g) as Ht.
  { rewrite Hto. apply list_elem_of_In, in_map. by apply list_elem_of_In. }
  split.
  - assert (e ∈ map edge (positionedEdges out)) as Hin.
    { unfold out. rewrite layout_edges_filter. apply list_elem_of_filter.
      split; [by split|exact He]. }
    apply list_elem_of_In, in_map_iff in Hin as [pe [Hpe Hin]].
    exists pe. split; [by apply list_elem_of_In|exact Hpe].
  - intros pe Hpe Hedge.
    destruct (layout_edge_geometry localeCompare g pe Hpe) as [_ [a [b Hab]]].
    destruct Hab as [Ha [Hb [Hx1 [_ [Hx2 _]]]]].
    rewrite Hedge, Hfrom in Ha. rewrite Hedge, Hto in Hb.
    destruct (find_orchestration localeCompare (nodes g) A HA HgA) as [a' [Ha' Hxa]].
    rewrite Ha in Ha'. injection Ha' as <-.
    rewrite HgA, HgB. split; [lia|]. split.
    + rewrite Hx1, Hxa. vm_compute. discriminate.
    + intros Hnd.
      destruct (find_unique localeCompare (nodes g) B Hnd HB) as [b' [Hb' [_ Hxb]]].
      rewrite Hb in Hb'. injection Hb' as <-.
      rewrite Hx2, Hxb, HgB, Hx1, Hxa. split; [reflexivity|].
      vm_compute. discriminate.
Qed.

Lemma orchestration_left_of_analysis_witness :
  exists pe, pe ∈ positionedEdges (computeLayout Sample.ordinal Sample.small) /\
             edge pe = Sample.a_to_b /\ x1 pe = 320 /\ x2 pe = 380.
Proof.
  destruct (orchestration_left_of_analysis Sample.ordinal Sample.small
              Sample.A Sample.B Sample.a_to_b) as [_ [_ [[pe [Hpe Hedge]] Hgeo]]].
  - apply (bool_decide_eq_true_1 (Sample.A ∈ nodes Sample.small)). vm_compute. reflexivity.
  - apply (bool_decide_eq_true_1 (Sample.B ∈ nodes Sample.small)). vm_compute. reflexivity.
  - reflexivity.
  - reflexivity.
  - apply (bool_decide_eq_true_1 (Sample.a_to_b ∈ edges Sample.small)).
    vm_compute. reflexivity.
  - reflexivity.
  - reflexivity.
  - exists pe. split; [exact Hpe|]. split; [exact Hedge|].
    destruct (Hgeo pe Hpe Hedge) as [Hx1 [_ Hx2]].
    split; [exact Hx1|]. apply Hx2.
    apply (bool_decide_unpack (NoDup _)). vm_compute. exact I.
Defined.

(** ** Activity Decay Tracker *)

Lemma assign_lookup k v next j :
  assign k v next !! j
  = if decide (k = j /\ k <> "__proto__") then Some v else next !! j.
Proof.
  unfold assign. destruct (String.eqb_spec k "__proto__") as [Hp|Hp].
  - rewrite decide_False by tauto. reflexivity.
  - destruct (decide (k = j)) as [->|Hne].
    + rewrite decide_True by tauto. apply lookup_insert_eq.
    + rewrite decide_False by tauto. by apply lookup_insert_ne.
Qed.

(** What a sweep leaves of the record of [k]. *)
Lemma sweep_lookup now (m : gmap string Z) k :
  sweep now m !! k
  = match m !! k with
    | Some v => if decide (now - v < 4000 /\ k <> "__proto__") then Some v else None
    | None => None
    end.
Proof.
  unfold sweep. revert k.
  apply (map_fold_weak_ind
           (fun (next m : gmap string Z) =>
              forall k, next !! k
                        = match m !! k with
                          | Some v => if decide (now - v < 4000 /\ k <> "__proto__")
                                      then Some v else None
                          | None => None
                          end)).
  - intros k. by rewrite !lookup_empty.
  - intros i v m' next Hfresh IH k.
    destruct (decide (i = k)) as [->|Hne].
    + rewrite lookup_insert_eq.
      destruct (Z.ltb_spec (now - v) 4000) as [Hyoung|Hold].
      * rewrite assign_lookup.
        destruct (decide (k <> "__proto__")) as [Hk|Hk].
        -- rewrite !decide_True by tauto. reflexivity.
        -- rewrite !decide_False by tauto. rewrite IH, Hfresh. reflexivity.
      * rewrite decide_False by lia. rewrite IH, Hfresh. reflexivity.
    + rewrite lookup_insert_ne by exact Hne.
      destruct (now - v <? 4000); [|apply IH].
      rewrite assign_lookup, decide_False by tauto. apply IH.
Qed.

Section TrackerFacts.
Variable graph : AgentGraph.

Lemma onmessage_arrival frame now m N :
  resolve graph frame = Some N ->
  onmessage graph (Some frame) now m = arrive N now m.
Proof. intros H. unfold onmessage. by rewrite H. Qed.

Lemma step_other N ev m :
  ~ arrival_for graph N ev ->
  step graph ev m !! N
  = match ev with
    | Tick t =>
        match m !! N with
        | Some v => if decide (t - v < 4000 /\ N <> "__proto__") then Some v else None
        | None => None
        end
    | Message _ _ => m !! N
    end.
Proof.
  destruct ev as [[d|] now|now]; simpl; intros Hno.
  - destruct (resolve graph d) as [i|] eqn:Hi; [|reflexivity].
    unfold arrive. apply lookup_insert_ne. congruence.
  - reflexivity.
  - apply sweep_lookup.
Qed.

Lemma run_cons ev evs m : run graph (ev :: evs) m = run graph evs (step graph ev m).
Proof. reflexivity. Qed.

Lemma run_app evs1 evs2 m : run graph (evs1 ++ evs2) m = run graph evs2 (run graph evs1 m).
Proof. unfold run. apply fold_left_app. Qed.

Lemma run_absent N evs m :
  Forall (fun ev => ~ arrival_for graph N ev) evs ->
  m !! N = None -> run graph evs m !! N = None.
Proof.
  intros Hevs. revert m. induction Hevs as [|ev evs Hev _ IH]; intros m Hm; [exact Hm|].
  rewrite run_cons. apply IH. rewrite (step_other N ev m Hev).
  destruct ev; by rewrite Hm.
Qed.

(** The record stays as long as every sweep comes before [T + 4000]. *)
Lemma run_keeps N T evs m :
  N <> "__proto__" ->
  Forall (fun ev => ~ arrival_for graph N ev) evs ->
  (forall t, Tick t ∈ evs -> t < T + 4000) ->
  m !! N = Some T -> run graph evs m !! N = Some T.
Proof.
  intros HN Hevs. revert m. induction Hevs as [|ev evs Hev _ IH]; intros m Hticks Hm;
    [exact Hm|].
  rewrite run_cons. apply IH.
  - intros t Ht. apply Hticks. apply elem_of_cons. by right.
  - rewrite (step_other N ev m Hev). destruct ev as [f now|now]; [exact Hm|].
    rewrite Hm. rewrite decide_True; [reflexivity|]. split; [|exact HN].
    assert (now < T + 4000) by (apply Hticks; apply elem_of_cons; by left). lia.
Qed.

(** The first sweep at or after [T + 4000] removes the record. *)
Lemma run_purges N T evs m :
  Forall (fun ev => ~ arrival_for graph N ev) evs ->
  (exists t, Tick t ∈ evs /\ T + 4000 <= t) ->
  m !! N = Some T -> run graph evs m !! N = None.
Proof.
  intros Hevs. revert m. induction Hevs as [|ev evs Hev Hevs IH]; intros m [t [Ht Hlate]] Hm.
  - by apply elem_of_nil in Ht.
  - rewrite run_cons.
    pose proof (step_other N ev m Hev) as Hstep.
    destruct ev as [f now|now].
    + apply IH; [|by rewrite Hstep].
      exists t. split; [|exact Hlate].
      apply elem_of_cons in Ht as [Heq|Ht]; [discriminate|exact Ht].
    + rewrite Hm in Hstep.
      destruct (decide (now - T < 4000 /\ N <> "__proto__")) as [[Hyoung _]|Hold].
      * apply IH; [|exact Hstep].
        exists t. split; [|exact Hlate].
        apply elem_of_cons in Ht as [Heq|Ht]; [|exact Ht].
        injection Heq as ->. lia.
      * by apply run_absent.
Qed.

Lemma periodic_tick (phase lo : Z) :
  exists k : Z, lo <= phase + 1000 * k < lo + 1000.
Proof.
  exists ((lo - phase + 999) / 1000).
  pose proof (Z.div_mod (lo - phase + 999) 1000 ltac:(lia)) as Hdiv.
  pose proof (Z.mod_pos_bound (lo - phase + 999) 1000 ltac:(lia)) as Hmod.
  lia.
Qed.

(** The life of one record: made at [T], kept by the sweeps before
    [T + 4000], removed by the first sweep from [T + 4000] on. *)
Lemma record_window N frame T evs m0 :
  resolve graph frame = Some N ->
  Forall (fun ev => ~ arrival_for graph N ev) evs ->
  let m := run graph (Message (Some frame) T :: evs) m0 in
  (N <> "__proto__" -> (forall t, Tick t ∈ evs -> t < T + 4000) -> m !! N = Some T) /\
  ((exists t, Tick t ∈ evs /\ T + 4000 <= t) -> m !! N = None).
Proof.
  intros Hres Hevs m. subst m. rewrite run_cons.
  change (step graph (Message (Some frame) T) m0) with (onmessage graph (Some frame) T m0).
  rewrite (onmessage_arrival _ _ _ _ Hres).
  assert (arrive N T m0 !! N = Some T) as Hnew by apply lookup_insert_eq.
  split.
  - intros HN Hticks. by apply run_keeps.
  - intros Hlate. by apply (run_purges N T).
Qed.

End TrackerFacts.

(** C2, as stated, fails: a record made at 500 ms, with the sweep running
    at 1000, 2000, 3000 and 4000 ms, is still there at 4500 ms, which is
    4000 ms after the arrival. *)
Lemma decay_claim_counterexample : ~ decay_claim_as_stated.
Proof.
  intros H.
  pose (evs := [Tick 1000; Tick 2000; Tick 3000; Tick 4000]).
  assert (Forall (fun ev => ~ arrival_for AgentsGraph.getAgentGraph "veo.generate" ev)
                 evs) as Hquiet.
  { repeat (constructor; [simpl; tauto|]). constructor. }
  destruct (H AgentsGraph.getAgentGraph "veo.generate" (Sample.explicit "veo.generate")
              500 4500 0 evs ∅) as [_ Hgone].
  - reflexivity.
  - repeat (constructor; [simpl; split; [tauto|lia]|]). constructor.
  - intros k Hk. assert (k = 1 \/ k = 2 \/ k = 3 \/ k = 4) as Hcases by lia.
    apply list_elem_of_In. destruct Hcases as [-> | [-> | [-> | ->]]]; simpl; auto 10.
  - lia.
  - specialize (Hgone ltac:(lia)).
    destruct (record_window AgentsGraph.getAgentGraph "veo.generate"
                (Sample.explicit "veo.generate") 500 evs ∅ eq_refl Hquiet) as [Hkept _].
    rewrite Hkept in Hgone; [discriminate Hgone|intros Heq; discriminate Heq|].
    intros t Ht. apply list_elem_of_In in Ht. simpl in Ht.
    destruct Ht as [Ht|[Ht|[Ht|[Ht|Ht]]]]; [injection Ht as <-; lia..|destruct Ht].
Qed.

(** C2, amended. A node id [N] other than ["__proto__"], recorded active at
    time [T] by an explicit agentId or a correlation match, has its record
    present, with timestamp [T], for every query before [T + 4000] ms, and
    for as long as no sweep has run at or after [T + 4000] ms; the first
    such sweep removes the entry from the record set, so with the sweep
    running every 1000 ms the entry is gone for every query at or after
    [T + 5000] ms, no further frame arriving for [N]. A new arrival for [N]
    replaces the timestamp, and the same window starts again at the new
    arrival time. *)
Theorem decay_window (g : AgentGraph) (N : string) (frame : ProgressEvent)
    (T q phase : Z) (evs : list TrackerEvent) (m0 : gmap string Z) :
  resolve g frame = Some N ->
  N <> "__proto__" ->
  Forall (fun ev => ~ arrival_for g N ev /\ T <= time_of ev <= q) evs ->
  swept_every_1000 phase T q evs ->
  T <= q ->
  let m := run g (Message (Some frame) T :: evs) m0 in
  (q < T + 4000 -> m !! N = Some T) /\
  ((forall t, Tick t ∈ evs -> t < T + 4000) -> m !! N = Some T) /\
  ((exists t, Tick t ∈ evs /\ T + 4000 <= t) -> m !! N = None) /\
  (T + 5000 <= q -> m !! N = None) /\
  (forall (frame' : ProgressEvent) (T' : Z) (evs' : list TrackerEvent),
      resolve g frame' = Some N ->
      Forall (fun ev => ~ arrival_for g N ev) evs' ->
      let m' := run g (Message (Some frame') T' :: evs') m in
      ((forall t, Tick t ∈ evs' -> t < T' + 4000) -> m' !! N = Some T') /\
      ((exists t, Tick t ∈ evs' /\ T' + 4000 <= t) -> m' !! N = None)).
Proof.
  intros Hres HN Hevs Hswept HTq m.
  assert (Forall (fun ev => ~ arrival_for g N ev) evs) as Hquiet.
  { eapply Forall_impl; [exact Hevs|]. simpl. tauto. }
  destruct (record_window g N frame T evs m0 Hres Hquiet) as [Hkept Hgone].
  fold m in Hkept, Hgone.
  split; [|split; [|split; [|split]]].
  - intros Hq. apply Hkept; [exact HN|]. intros t Ht.
    rewrite Forall_forall in Hevs. destruct (Hevs _ Ht) as [_ Htime].
    simpl in Htime. lia.
  - by apply Hkept.
  - exact Hgone.
  - intros Hq. apply Hgone. destruct (periodic_tick phase (T + 4000)) as [k Hk].
    exists (phase + 1000 * k). split; [|lia]. apply Hswept. lia.
  - intros frame' T' evs' Hres' Hquiet' m'.
    destruct (record_window g N frame' T' evs' m Hres' Hquiet') as [Hkept' Hgone'].
    split; [by apply Hkept'|exact Hgone'].
Qed.

Lemma decay_window_witness :
  run AgentsGraph.getAgentGraph
      (Message (Some (Sample.explicit "vision.analyze")) 0
         :: [Tick 0; Tick 1000; Tick 2000; Tick 3000; Tick 4000]) ∅
    !! "vision.analyze" = None.
Proof.
  pose (evs := [Tick 0; Tick 1000; Tick 2000; Tick 3000; Tick 4000]).
  destruct (decay_window AgentsGraph.getAgentGraph "vision.analyze"
              (Sample.explicit "vision.analyze") 0 4000 0 evs ∅)
    as [_ [_ [Hgone _]]].
  - reflexivity.
  - intros Heq. discriminate Heq.
  - repeat (constructor; [simpl; split; [tauto|lia]|]). constructor.
  - intros k Hk. assert (k = 0 \/ k = 1 \/ k = 2 \/ k = 3 \/ k = 4) as Hcases by lia.
    apply list_elem_of_In. destruct Hcases as [-> | [-> | [-> | [-> | ->]]]]; simpl; auto 10.
  - lia.
  - apply Hgone. exists 4000. split; [|lia].
    apply list_elem_of_In. simpl. auto 10.
Defined.

(** ** Graph route *)

Lemma json_of_method_inj m1 m2 :
  GraphRoute.json_of_method m1 = GraphRoute.json_of_method m2 -> m1 = m2.
Proof. destruct m1, m2; simpl; intros H; try reflexivity; discriminate H. Qed.

Lemma json_of_group_inj g1 g2 :
  GraphRoute.json_of_group g1 = GraphRoute.json_of_group g2 -> g1 = g2.
Proof. destruct g1, g2; simpl; intros H; try reflexivity; discriminate H. Qed.

Lemma map_injective {A B} (f : A -> B) :
  (forall a1 a2, f a1 = f a2 -> a1 = a2) ->
  forall l1 l2, map f l1 = map f l2 -> l1 = l2.
Proof.
  intros Hinj. induction l1 as [|a l1 IH]; intros [|b l2]; simpl; intros H;
    try discriminate H; [reflexivity|].
  injection H as Hab Hl. f_equal; auto.
Qed.

(** Nothing of a node is lost in the payload. *)
Lemma json_of_node_inj n1 n2 :
  GraphRoute.json_of_node n1 = GraphRoute.json_of_node n2 -> n1 = n2.
Proof.
  destruct n1 as [i1 na1 p1 ms1 [d1|] g1 [e1|]], n2 as [i2 na2 p2 ms2 [d2|] g2 [e2|]];
    unfold GraphRoute.json_of_node; simpl; intros H; try discriminate H;
    injection H; intros; subst;
    repeat match goal with
      | H : GraphRoute.json_of_group _ = GraphRoute.json_of_group _ |- _ =>
          apply json_of_group_inj in H; subst
      | H : map GraphRoute.json_of_method _ = map GraphRoute.json_of_method _ |- _ =>
          apply (map_injective _ json_of_method_inj) in H; subst
      | H : map JStr _ = map JStr _ |- _ =>
          apply (map_injective JStr) in H; [subst|congruence]
      end;
    try reflexivity;
    destruct g1, g2; first [discriminate | reflexivity].
Qed.

Lemma json_of_edge_inj e1 e2 :
  GraphRoute.json_of_edge e1 = GraphRoute.json_of_edge e2 -> e1 = e2.
Proof.
  destruct e1 as [f1 t1 [l1|] [o1|]], e2 as [f2 t2 [l2|] [o2|]];
    unfold GraphRoute.json_of_edge; simpl; intros H; try discriminate H;
    injection H; intros; subst; reflexivity.
Qed.

(** C7. When [getAgentGraph] throws, the graph route answers with status
    500 and a payload whose [error] field holds a message: the thrown
    value's [message] when it is truthy, else "Failed to get graph". When
    the call returns, the route answers with the whole graph as one
    [{ nodes: [...], edges: [...] }] payload; for the static graph that is
    every one of its 14 nodes and 10 edges, in order and without loss. *)
Theorem graph_route_replies :
  (forall e : jsval,
      status_code (GraphRoute.GET_of (Js.Throw e)) = 500 /\
      exists msg : jsval,
        payload (GraphRoute.GET_of (Js.Throw e)) = JObj [("error", msg)] /\
        Js.truthy msg = true /\
        (Js.truthy (Js.get e "message") = true -> msg = Js.get e "message") /\
        (Js.truthy (Js.get e "message") = false -> msg = JStr "Failed to get graph")) /\
  (forall g : AgentGraph,
      GraphRoute.GET_of (Js.Ok g)
      = {| status_code := 200;
           payload := JObj [("nodes", JArr (map GraphRoute.json_of_node (nodes g)));
                            ("edges", JArr (map GraphRoute.json_of_edge (edges g)))] |}) /\
  GraphRoute.GET
  = {| status_code := 200;
       payload := JObj [("nodes", JArr (map GraphRoute.json_of_node AgentsGraph.nodes));
                        ("edges", JArr (map GraphRoute.json_of_edge AgentsGraph.edges))] |} /\
  length (map GraphRoute.json_of_node AgentsGraph.nodes) = 14%nat /\
  length (map GraphRoute.json_of_edge AgentsGraph.edges) = 10%nat /\
  (forall g g' : AgentGraph,
      GraphRoute.GET_of (Js.Ok g) = GraphRoute.GET_of (Js.Ok g') -> g = g').
Proof.
  split; [|split; [|split; [|split; [|split]]]]; try reflexivity.
  - intros e. split; [reflexivity|].
    exists (Js.or (Js.get e "message") (JStr "Failed to get graph")).
    split; [reflexivity|]. unfold Js.or.
    destruct (Js.truthy (Js.get e "message")) eqn:Hm; split; try reflexivity;
      try exact Hm; split; intros H; try reflexivity; discriminate H.
  - intros [ns es] [ns' es']. unfold GraphRoute.GET_of, GraphRoute.json_of_graph. simpl.
    intros H. injection H as Hn He.
    apply (map_injective _ json_of_node_inj) in Hn.
    apply (map_injective _ json_of_edge_inj) in He. by subst.
Qed.

Lemma graph_route_replies_witness :
  GraphRoute.GET_of (Js.Throw (JObj [("message", JStr "graph unavailable")]))
  = {| status_code := 500; payload := JObj [("error", JStr "graph unavailable")] |}.
Proof.
  destruct graph_route_replies as [Hfail _].
  destruct (Hfail (JObj [("message", JStr "graph unavailable")]))
    as [Hstatus [msg [Hpayload [_ [Hmsg _]]]]].
  rewrite (Hmsg eq_refl) in Hpayload.
  destruct (GraphRoute.GET_of _) as [st body]. simpl in *. by subst.
Defined.

(** ** Progress push route *)






(** * Further properties *)

(** ** Correlation Engine: range, misses, composition *)

Lemma lower_ascii_idem c : Str.lower_ascii (Str.lower_ascii c) = Str.lower_ascii c.
Proof. destruct c as [[] [] [] [] [] [] [] []]; reflexivity. Qed.

Lemma toLowerCase_idem s : Str.toLowerCase (Str.toLowerCase s) = Str.toLowerCase s.
Proof. induction s as [|c r IH]; simpl; [reflexivity|]. by rewrite lower_ascii_idem, IH. Qed.

Lemma prefix_app_l p q s : String.prefix (p +:+ q) s = true -> String.prefix p s = true.
Proof.
  revert s. induction p as [|c p IH]; intros [|d s]; simpl; intros H;
    try reflexivity; try discriminate H.
  destruct (ascii_dec c d); [by apply IH|discriminate H].
Qed.

Lemma includes_app_l s p q : Str.includes s (p +:+ q) = true -> Str.includes s p = true.
Proof.
  induction s as [|c r IH]; cbn [Str.includes]; rewrite !orb_true_iff.
  - intros [H|H]; [left; by apply (prefix_app_l p q)|discriminate H].
  - intros [H|H]; [left; by apply (prefix_app_l p q)|right; by apply IH].
Qed.

(** A message that mentions "imagen" mentions "image". *)
Lemma imagen_is_image m :
  Str.test_i ["image"; "imagen"] m = true -> Str.test_i ["analyz"; "image"] m = true.
Proof.
  unfold Str.test_i. simpl. rewrite !orb_false_r, !orb_true_iff.
  intros [H|H]; right; [exact H|]. by apply (includes_app_l _ "image" "n").
Qed.

Lemma match_loop_app_any ns1 ns2 m :
  match_loop (ns1 ++ ns2) m
  = match match_loop ns1 m with
    | Some r => Some r
    | None => match_loop ns2 m
    end.
Proof.
  induction ns1 as [|n ns1 IH]; simpl; [reflexivity|].
  destruct (match_node n m); [reflexivity|exact IH].
Qed.

Lemma match_node_range n m r :
  match_node n m = Some r ->
  r ∈ ["voice.run"; "vision.analyze"; "cultural.intelligence"; "imagen.generate"] \/
  (id n = r /\ keys_include n "veo" = true).
Proof.
  unfold match_node.
  destruct (rule_voice n m); [intros [= <-]; left; set_solver|].
  destruct (rule_vision n m); [intros [= <-]; left; set_solver|].
  destruct (rule_cultural n m); [intros [= <-]; left; set_solver|].
  destruct (rule_imagen n m); [intros [= <-]; left; set_solver|].
  destruct (rule_veo n m) eqn:Hveo; [|intros H; discriminate H].
  intros [= <-]. right. split; [reflexivity|].
  unfold rule_veo in Hveo. by apply andb_true_iff in Hveo as [Hk _].
Qed.

(** X1. Whatever the graph and the message, a correlation match is one of
    the four fixed ids or the id of a node of the graph whose name, path or
    id contains "veo"; no other node of the graph is ever the answer. *)
Theorem correlation_range (g : AgentGraph) (message r : string) :
  matchAgentByMessage g message = Some r ->
  r ∈ ["voice.run"; "vision.analyze"; "cultural.intelligence"; "imagen.generate"] \/
  (exists n : AgentNode, n ∈ nodes g /\ id n = r /\ keys_include n "veo" = true).
Proof.
  unfold matchAgentByMessage. induction (nodes g) as [|n ns IH]; simpl.
  - intros H. discriminate H.
  - destruct (match_node n (Str.toLowerCase message)) as [r'|] eqn:Hn.
    + intros [= <-]. destruct (match_node_range _ _ _ Hn) as [Hfixed|[Hid Hveo]].
      * by left.
      * right. exists n. split; [apply elem_of_cons; by left|by split].
    + intros Hrest. destruct (IH Hrest) as [Hfixed|[n' [Hin Hn']]]; [by left|].
      right. exists n'. split; [apply elem_of_cons; by right|exact Hn'].
Qed.

Lemma correlation_range_witness :
  exists n : AgentNode,
    n ∈ nodes Sample.veo_swapped /\ id n = "veo.operation" /\ keys_include n "veo" = true.
Proof.
  destruct (correlation_range Sample.veo_swapped Sample.veo_message "veo.operation")
    as [Hfixed|Hnode].
  - vm_compute. reflexivity.
  - exfalso. apply list_elem_of_In in Hfixed. simpl in Hfixed.
    destruct Hfixed as [H|[H|[H|[H|H]]]]; [discriminate H..|destruct H].
  - exact Hnode.
Defined.

(** X2. A message that, ignoring case, contains none of the words voice,
    analyz, image, cultural, culture, video, veo, operation and download is
    correlated to no node, whatever the graph; so is every message on a
    graph without nodes. *)
Theorem keyword_free_message_never_matches (message : string) :
  Forall (fun w => Str.includes (Str.toLowerCase message) w = false)
         ["voice"; "analyz"; "image"; "cultural"; "culture";
          "video"; "veo"; "operation"; "download"] ->
  forall g : AgentGraph, matchAgentByMessage g message = None.
Proof.
  intros Hwords g.
  repeat (apply Forall_cons in Hwords as [? Hwords]).
  assert (Str.includes (Str.toLowerCase message) "imagen" = false) as Himagen.
  { destruct (Str.includes (Str.toLowerCase message) "imagen") eqn:Hi; [|reflexivity].
    apply (includes_app_l _ "image" "n") in Hi. congruence. }
  unfold matchAgentByMessage. induction (nodes g) as [|n ns IH]; simpl; [reflexivity|].
  assert (match_node n (Str.toLowerCase message) = None) as ->; [|exact IH].
  unfold match_node, rule_voice, rule_vision, rule_cultural, rule_imagen, rule_veo,
    Str.test, Str.test_i. simpl. rewrite toLowerCase_idem.
  repeat match goal with H : Str.includes _ _ = false |- _ => rewrite H; clear H end.
  simpl. rewrite !andb_false_r. reflexivity.
Qed.

Lemma keyword_free_message_never_matches_witness :
  matchAgentByMessage AgentsGraph.getAgentGraph "Uploading the brief" = None.
Proof.
  apply keyword_free_message_never_matches.
  repeat (constructor; [vm_compute; reflexivity|]). constructor.
Defined.

(** X3. Correlating over two node lists in sequence is correlating over the
    first and, only when that finds nothing, over the second: nodes added
    at the end of a graph never change a match, and the edges play no
    part. *)
Theorem correlation_over_appended_nodes (ns1 ns2 : list AgentNode)
    (es es1 es2 : list AgentEdge) (message : string) :
  matchAgentByMessage {| nodes := ns1 ++ ns2; edges := es |} message
  = match matchAgentByMessage {| nodes := ns1; edges := es1 |} message with
    | Some r => Some r
    | None => matchAgentByMessage {| nodes := ns2; edges := es2 |} message
    end.
Proof. unfold matchAgentByMessage. simpl. apply match_loop_app_any. Qed.

(** X4. On the static graph the correlation of any message is decided by
    four tests on the lower-cased text, in this order: "voice" gives
    "voice.run"; "cultural" or "culture" gives "cultural.intelligence";
    "analyz" or "image" gives "vision.analyze"; "video", "veo", "operation"
    or "download" gives "veo.generate"; otherwise there is no match. No
    message is correlated to "imagen.generate" or to any other node. *)
Theorem static_graph_correlation (message : string) :
  let m := Str.toLowerCase message in
  matchAgentByMessage AgentsGraph.getAgentGraph message
  = if Str.includes m "voice" then Some "voice.run"
    else if Str.includes m "cultural" || Str.includes m "culture"
         then Some "cultural.intelligence"
    else if Str.includes m "analyz" || Str.includes m "image"
         then Some "vision.analyze"
    else if Str.includes m "video" || Str.includes m "veo" ||
            Str.includes m "operation" || Str.includes m "download"
         then Some "veo.generate"
    else None.
Proof.
  intros m. subst m. unfold matchAgentByMessage.
  pose proof (imagen_is_image (Str.toLowerCase message)) as Himagen.
  unfold Str.test_i in Himagen. rewrite toLowerCase_idem in Himagen.
  simpl in Himagen. rewrite !orb_false_r in Himagen.
  cbv [AgentsGraph.getAgentGraph nodes AgentsGraph.nodes match_loop match_node
       rule_voice rule_vision rule_cultural rule_imagen rule_veo Str.test Str.test_i
       existsb].
  rewrite toLowerCase_idem. rewrite !orb_false_r.
  set (m := Str.toLowerCase message) in *.
  generalize dependent (Str.includes m "voice"). intros b_voice.
  generalize dependent (Str.includes m "analyz"). intros b_analyz.
  generalize dependent (Str.includes m "image"). intros b_image.
  generalize dependent (Str.includes m "cultural"). intros b_cultural.
  generalize dependent (Str.includes m "culture"). intros b_culture.
  generalize dependent (Str.includes m "imagen"). intros b_imagen Himagen.
  generalize dependent (Str.includes m "video"). intros b_video.
  generalize dependent (Str.includes m "veo"). intros b_veo.
  generalize dependent (Str.includes m "operation"). intros b_operation.
  generalize dependent (Str.includes m "download"). intros b_download.
  clear m. vm_compute.
  destruct b_voice; [reflexivity|].
  destruct b_cultural; [reflexivity|]. destruct b_culture; [reflexivity|].
  destruct b_analyz; [reflexivity|]. destruct b_image; [reflexivity|].
  destruct b_imagen.
  { specialize (Himagen eq_refl). discriminate Himagen. }
  destruct b_video; [reflexivity|]. destruct b_veo; [reflexivity|].
  destruct b_operation; [reflexivity|]. destruct b_download; reflexivity.
Qed.

(** ** Layout Engine: conservation, grid, spacing *)

Lemma bucket_cons g n ns :
  bucket g (n :: ns) = if decide (group n = g) then n :: bucket g ns else bucket g ns.
Proof. unfold bucket. by rewrite filter_cons. Qed.

(** The five buckets share out the nodes. *)
Lemma buckets_partition ns :
  Permutation
    (bucket orchestration ns ++ bucket analysis ns ++ bucket generation ns
       ++ bucket media ns ++ bucket progress ns) ns.
Proof.
  induction ns as [|n ns IH]; [reflexivity|].
  rewrite !bucket_cons.
  destruct (group n); simpl; rewrite <- ?Permutation_middle; by apply perm_skip.
Qed.

Section LayoutMore.
Variable localeCompare : string -> string -> Z.

(** X5. The layout places every node of the graph exactly once: the
    positioned nodes, stripped of their coordinates, are a rearrangement of
    the graph's node list, duplicates included. *)
Theorem layout_places_every_node_once (g : AgentGraph) :
  Permutation (map node (positionedNodes (computeLayout localeCompare g))) (nodes g) /\
  length (positionedNodes (computeLayout localeCompare g)) = length (nodes g).
Proof.
  assert (Permutation (map node (place localeCompare (nodes g))) (nodes g)) as Hperm.
  { unfold place. simpl. rewrite !map_app, !lane_nodes. simpl. rewrite app_nil_r.
    rewrite !(sort_perm (by_name localeCompare)). apply buckets_partition. }
  split; [exact Hperm|].
  apply Permutation_length in Hperm. by rewrite length_map in Hperm.
Qed.

Lemma positioned_row ns p :
  p ∈ place localeCompare ns ->
  node p ∈ ns /\ x p = laneX (group (node p)) /\
  exists k : nat,
    (k < length (bucket (group (node p)) ns))%nat /\ y p = 120 + 160 * Z.of_nat k.
Proof.
  intros Hp. apply place_elem in Hp as [gr Hlane].
  destruct (lane_elem _ _ _ _ Hlane) as [Hin [Hg Hx]].
  apply list_elem_of_lookup in Hlane as [k Hk].
  pose proof (lookup_lt_Some _ _ _ Hk) as Hlt. rewrite lane_length in Hlt.
  apply lane_lookup in Hk as [_ [_ Hy]].
  subst gr. split; [exact Hin|]. split; [exact Hx|]. exists k. split; [exact Hlt|lia].
Qed.

(** X6. Every positioned node sits on the grid: its x is the offset of its
    group's lane (120, 380, 640, 900 or 1160) and its y is 120 + 160 k for
    a row k below the number of nodes of its group, so y stays between 120
    and 120 + 160 (n - 1) for a graph of n nodes. *)
Theorem positioned_nodes_on_grid (g : AgentGraph) (p : PositionedNode) :
  p ∈ positionedNodes (computeLayout localeCompare g) ->
  node p ∈ nodes g /\
  x p = laneX (group (node p)) /\
  x p ∈ [120; 380; 640; 900; 1160] /\
  (exists k : nat,
      (k < length (filter (fun n => group n = group (node p)) (nodes g)))%nat /\
      y p = 120 + 160 * Z.of_nat k) /\
  120 <= y p <= 120 + 160 * (Z.of_nat (length (nodes g)) - 1).
Proof.
  intros Hp. destruct (positioned_row _ _ Hp) as [Hin [Hx [k [Hk Hy]]]].
  split; [exact Hin|]. split; [exact Hx|]. split.
  - rewrite Hx. apply list_elem_of_In. destruct (group (node p)); simpl; auto 10.
  - split; [by exists k|].
    pose proof (length_filter (fun n => group n = group (node p)) (nodes g)) as Hle.
    unfold bucket in Hk. lia.
Qed.

Lemma laneX_apart g1 g2 :
  g1 <> g2 -> laneX g1 + 260 <= laneX g2 \/ laneX g2 + 260 <= laneX g1.
Proof.
  destruct g1, g2; intros Hne; try (exfalso; by apply Hne);
    first [left; vm_compute; discriminate | right; vm_compute; discriminate].
Qed.

(** X7. The boxes of two positioned nodes never overlap: nodes of different
    lanes are at least 60 apart horizontally, nodes of one lane at least 64
    apart vertically, the box being 200 wide and 96 high. *)
Theorem node_boxes_disjoint (g : AgentGraph) (i j : nat) (p q : PositionedNode) :
  positionedNodes (computeLayout localeCompare g) !! i = Some p ->
  positionedNodes (computeLayout localeCompare g) !! j = Some q ->
  i <> j ->
  x p + node_width + 60 <= x q \/ x q + node_width + 60 <= x p \/
  y p + node_height + 64 <= y q \/ y q + node_height + 64 <= y p.
Proof.
  intros Hp Hq Hij. unfold node_width, node_height.
  change (place localeCompare (nodes g) !! i = Some p) in Hp.
  change (place localeCompare (nodes g) !! j = Some q) in Hq.
  assert (p ∈ place localeCompare (nodes g)) as Hpin by (apply list_elem_of_lookup; eauto).
  assert (q ∈ place localeCompare (nodes g)) as Hqin by (apply list_elem_of_lookup; eauto).
  destruct (positioned_row _ _ Hpin) as [_ [Hxp [kp [_ Hyp]]]].
  destruct (positioned_row _ _ Hqin) as [_ [Hxq [kq [_ Hyq]]]].
  destruct (decide (group (node p) = group (node q))) as [Hg|Hg].
  - assert (y p <> y q) as Hy.
    { intros Hy. apply Hij.
      apply (NoDup_lookup _ i j (slot p) (place_slots_NoDup localeCompare (nodes g))).
      - change (map slot (place localeCompare (nodes g)))
          with (slot <$> place localeCompare (nodes g)).
        by rewrite list_lookup_fmap, Hp.
      - change (map slot (place localeCompare (nodes g)))
          with (slot <$> place localeCompare (nodes g)).
        rewrite list_lookup_fmap, Hq. simpl. unfold slot. by rewrite Hg, Hy. }
    lia.
  - destruct (laneX_apart _ _ Hg); lia.
Qed.

End LayoutMore.

Lemma positioned_nodes_on_grid_witness :
  let p := {| node := Sample.C; x := 380; y := 120 |} in
  x p ∈ [120; 380; 640; 900; 1160] /\ 120 <= y p <= 600.
Proof.
  intros p.
  assert (p ∈ positionedNodes (computeLayout Sample.ordinal Sample.small)) as Hp.
  { apply (list_elem_of_lookup_2 _ 1%nat). vm_compute. reflexivity. }
  destruct (positioned_nodes_on_grid Sample.ordinal Sample.small p Hp)
    as [_ [_ [Hx [_ Hy]]]].
  split; [exact Hx|exact Hy].
Defined.

Lemma node_boxes_disjoint_witness :
  let p := {| node := Sample.C; x := 380; y := 120 |} in
  let q := {| node := Sample.B; x := 380; y := 280 |} in
  x p + node_width + 60 <= x q \/ x q + node_width + 60 <= x p \/
  y p + node_height + 64 <= y q \/ y q + node_height + 64 <= y p.
Proof.
  intros p q.
  apply (node_boxes_disjoint Sample.ordinal Sample.small 1 2 p q).
  - vm_compute. reflexivity.
  - vm_compute. reflexivity.
  - intros H. discriminate H.
Defined.

Lemma precedes_laneX g1 g2 : precedes g1 g2 <-> laneX g1 + 260 <= laneX g2.
Proof.
  split.
  - intros [i [j [Hi [Hj Hlt]]]].
    destruct i as [|[|[|[|[|i]]]]]; simpl in Hi; try discriminate Hi; injection Hi as <-;
      destruct j as [|[|[|[|[|j]]]]]; simpl in Hj; try discriminate Hj; injection Hj as <-;
      try lia; vm_compute; discriminate.
  - intros Hle.
    destruct g1, g2; try (exfalso; vm_compute in Hle; by apply Hle);
      first
        [ exists 0%nat, 1%nat; repeat split; lia | exists 0%nat, 2%nat; repeat split; lia
        | exists 0%nat, 3%nat; repeat split; lia | exists 0%nat, 4%nat; repeat split; lia
        | exists 1%nat, 2%nat; repeat split; lia | exists 1%nat, 3%nat; repeat split; lia
        | exists 1%nat, 4%nat; repeat split; lia | exists 2%nat, 3%nat; repeat split; lia
        | exists 2%nat, 4%nat; repeat split; lia | exists 3%nat, 4%nat; repeat split; lia ].
Qed.

(** X8. With unique node ids, the edge drawn from node [A] to node [B]
    leaves the right side of [A]'s box at mid height and reaches the left
    side of [B]'s box at mid height. It points rightwards (start x below
    end x) exactly when [B]'s lane comes after [A]'s in the lane order; an
    edge inside one lane runs backwards, from x + 200 to x. *)
Theorem edge_geometry_by_lane (localeCompare : string -> string -> Z)
    (g : AgentGraph) (A B : AgentNode) (e : AgentEdge) (pe : PositionedEdge) :
  NoDup (node_ids g) ->
  A ∈ nodes g -> B ∈ nodes g ->
  from e = id A -> to e = id B ->
  pe ∈ positionedEdges (computeLayout localeCompare g) -> edge pe = e ->
  (exists a b : PositionedNode,
      a ∈ positionedNodes (computeLayout localeCompare g) /\ node a = A /\
      b ∈ positionedNodes (computeLayout localeCompare g) /\ node b = B /\
      x1 pe = x a + node_width /\ 2 * y1 pe = 2 * y a + node_height /\
      x2 pe = x b /\ 2 * y2 pe = 2 * y b + node_height) /\
  x1 pe = laneX (group A) + 200 /\ x2 pe = laneX (group B) /\
  (x1 pe < x2 pe <-> precedes (group A) (group B)) /\
  (group A = group B -> x1 pe = x2 pe + 200).
Proof.
  intros Hnd HA HB Hfrom Hto Hpe Hedge.
  destruct (layout_edge_geometry localeCompare g pe Hpe) as [_ [a [b Hab]]].
  destruct Hab as [Ha [Hb [Hx1 [Hy1 [Hx2 Hy2]]]]].
  rewrite Hedge, Hfrom in Ha. rewrite Hedge, Hto in Hb.
  destruct (find_unique localeCompare (nodes g) A Hnd HA) as [a' [Ha' [Hna Hxa]]].
  destruct (find_unique localeCompare (nodes g) B Hnd HB) as [b' [Hb' [Hnb Hxb]]].
  rewrite Ha in Ha'. injection Ha' as <-. rewrite Hb in Hb'. injection Hb' as <-.
  apply find_Some in Ha as [Hina _]. apply find_Some in Hb as [Hinb _].
  unfold node_width, node_height.
  split; [|split; [lia|split; [lia|split]]].
  - exists a, b. repeat split; try assumption; lia.
  - rewrite precedes_laneX.
    destruct (decide (group A = group B)) as [Hg|Hg].
    + rewrite Hg in *. lia.
    + destruct (laneX_apart _ _ Hg); lia.
  - intros Hg. rewrite Hg in *. lia.
Qed.

Lemma edge_geometry_by_lane_witness :
  let pe := {| edge := Sample.a_to_b; x1 := 320; y1 := 168; x2 := 380; y2 := 328 |} in
  x1 pe = laneX orchestration + 200 /\ x2 pe = laneX analysis /\
  precedes orchestration analysis.
Proof.
  intros pe.
  destruct (edge_geometry_by_lane Sample.ordinal Sample.small Sample.A Sample.B
              Sample.a_to_b pe) as [_ [Hx1 [Hx2 [Hdir _]]]].
  - apply (bool_decide_unpack (NoDup _)). vm_compute. exact I.
  - apply (bool_decide_eq_true_1 (Sample.A ∈ nodes Sample.small)). vm_compute. reflexivity.
  - apply (bool_decide_eq_true_1 (Sample.B ∈ nodes Sample.small)). vm_compute. reflexivity.
  - reflexivity.
  - reflexivity.
  - apply (list_elem_of_lookup_2 _ 0%nat). vm_compute. reflexivity.
  - reflexivity.
  - split; [exact Hx1|]. split; [exact Hx2|]. apply Hdir. simpl. lia.
Defined.

(** ** Graph canvas *)

Lemma Math_max_nil_iff l : Math.max l = NegInfinity <-> l = [].
Proof.
  destruct l as [|z l]; simpl; [tauto|].
  split; [|intros H; discriminate H]. destruct (Math.max l); intros H; discriminate H.
Qed.

Lemma Math_max_spec l M :
  Math.max l = Finite M -> M ∈ l /\ Forall (fun z => z <= M) l.
Proof.
  revert M. induction l as [|z l IH]; simpl; intros M HM; [discriminate HM|].
  destruct (Math.max l) as [|a] eqn:Hl.
  - injection HM as <-. apply Math_max_nil_iff in Hl as ->.
    split; [apply elem_of_cons; by left|]. repeat constructor. lia.
  - injection HM as <-. destruct (IH a eq_refl) as [Hin Hall]. split.
    + destruct (Z.max_spec z a) as [[_ ->]|[_ ->]]; apply elem_of_cons; auto.
    + constructor; [lia|]. eapply Forall_impl; [exact Hall|]. simpl. lia.
Qed.

(** X9. The canvas is computed from the positioned nodes: for a graph with
    nodes, its width is the largest node x plus 320 and its height the
    largest node y plus 220, so every node box lies inside it with at least
    120 to spare on the right and 124 below. For a graph without nodes,
    which is the page's state before the graph is loaded, both come out as
    [-Infinity]. *)
Theorem canvas_encloses_nodes (localeCompare : string -> string -> Z) (g : AgentGraph) :
  let layout := computeLayout localeCompare g in
  (nodes g = [] ->
   canvas_width layout = NegInfinity /\ canvas_height layout = NegInfinity) /\
  (nodes g <> [] ->
   exists W H : Z,
     canvas_width layout = Finite W /\ canvas_height layout = Finite H /\
     (forall p, p ∈ positionedNodes layout ->
                x p + node_width + 120 <= W /\ y p + node_height + 124 <= H) /\
     (exists p, p ∈ positionedNodes layout /\ W = x p + 320) /\
     (exists p, p ∈ positionedNodes layout /\ H = y p + 220)).
Proof.
  intros layout. subst layout.
  destruct (layout_places_every_node_once localeCompare g) as [_ Hlen].
  unfold canvas_width, canvas_height, node_width, node_height.
  remember (positionedNodes (computeLayout localeCompare g)) as ps eqn:Hps.
  clear Hps. split.
  - intros Hnil. rewrite Hnil in Hlen.
    destruct ps; [by split|simpl in Hlen; discriminate Hlen].
  - intros Hne.
    assert (ps <> []) as Hps.
    { intros Hnil. rewrite Hnil in Hlen. destruct (nodes g); [by apply Hne|].
      simpl in Hlen. discriminate Hlen. }
    destruct (Math.max (map x ps)) as [|MX] eqn:HX.
    { apply Math_max_nil_iff, map_eq_nil in HX. contradiction. }
    destruct (Math.max (map y ps)) as [|MY] eqn:HY.
    { apply Math_max_nil_iff, map_eq_nil in HY. contradiction. }
    apply Math_max_spec in HX as [HXin HXall]. apply Math_max_spec in HY as [HYin HYall].
    exists (MX + 320), (MY + 220). simpl. split; [reflexivity|]. split; [reflexivity|].
    split; [|split].
    + intros p Hp. rewrite Forall_forall in HXall, HYall.
      assert (x p <= MX) by (apply HXall, list_elem_of_In, in_map; by apply list_elem_of_In).
      assert (y p <= MY) by (apply HYall, list_elem_of_In, in_map; by apply list_elem_of_In).
      lia.
    + apply list_elem_of_In, in_map_iff in HXin as [p [Hx Hp]].
      exists p. split; [by apply list_elem_of_In|lia].
    + apply list_elem_of_In, in_map_iff in HYin as [p [Hy Hp]].
      exists p. split; [by apply list_elem_of_In|lia].
Qed.

Lemma canvas_encloses_nodes_witness :
  canvas_width (computeLayout Sample.ordinal {| nodes := []; edges := [] |}) = NegInfinity /\
  canvas_width (computeLayout Sample.ordinal Sample.small) = Finite 700 /\
  canvas_height (computeLayout Sample.ordinal Sample.small) = Finite 660.
Proof.
  split.
  - apply (canvas_encloses_nodes Sample.ordinal {| nodes := []; edges := [] |}).
    reflexivity.
  - destruct (canvas_encloses_nodes Sample.ordinal Sample.small) as [_ Hfull].
    destruct Hfull as [W [H [HW [HH _]]]]; [intros Hnil; discriminate Hnil|].
    split; vm_compute; reflexivity.
Defined.

(** ** Activity Decay Tracker: the sweep and the frames *)

(** X10. A sweep at time [now] keeps exactly the records younger than 4000
    ms whose key is not ["__proto__"], each with its timestamp unchanged; it
    adds nothing, and after it every record left is younger than 4000 ms. *)
Theorem sweep_keeps_young_records (now : Z) (m : gmap string Z) :
  (forall (k : string) (v : Z),
      sweep now m !! k = Some v <->
      m !! k = Some v /\ now - v < 4000 /\ k <> "__proto__") /\
  sweep now m ⊆ m /\
  map_Forall (fun _ v => now - 4000 < v) (sweep now m).
Proof.
  assert (forall k v, sweep now m !! k = Some v <->
                      m !! k = Some v /\ now - v < 4000 /\ k <> "__proto__") as Hiff.
  { intros k v. rewrite sweep_lookup. destruct (m !! k) as [w|];
      [|split; [intros H; discriminate H|intros [H _]; discriminate H]].
    destruct (decide (now - w < 4000 /\ k <> "__proto__")) as [Hd|Hd].
    - split; [intros [= <-]; tauto|intros [[= <-] _]; reflexivity].
    - split; [intros H; discriminate H|intros [[= <-] ?]; tauto]. }
  split; [exact Hiff|]. split.
  - apply map_subseteq_spec. intros k v Hk. by apply Hiff in Hk as [? _].
  - intros k v Hk. apply Hiff in Hk as [_ [? _]]. lia.
Qed.

Lemma sweep_keeps_young_records_witness :
  sweep 4500 (<["a" := 0]> (<["b" := 3000]> ∅)) !! "b" = Some 3000.
Proof.
  apply (sweep_keeps_young_records 4500 (<["a" := 0]> (<["b" := 3000]> ∅))).
  split; [|split; [lia|intros H; discriminate H]].
  rewrite lookup_insert_ne by (intros H; discriminate H). apply lookup_insert_eq.
Defined.

(** X11. Sweeps compose: a sweep followed by a later sweep leaves what the
    later sweep alone would leave; in particular sweeping twice at the same
    time changes nothing more. *)
Theorem sweep_then_later_sweep (t1 t2 : Z) (m : gmap string Z) :
  t1 <= t2 -> sweep t2 (sweep t1 m) = sweep t2 m.
Proof.
  intros Hle. apply map_eq. intros k. rewrite !sweep_lookup.
  destruct (m !! k) as [v|]; [|reflexivity].
  destruct (decide (t1 - v < 4000 /\ k <> "__proto__")) as [H1|H1].
  - reflexivity.
  - rewrite decide_False; [reflexivity|]. intros [H2 Hk]. apply H1. split; [lia|exact Hk].
Qed.

Lemma sweep_then_later_sweep_witness :
  sweep 5000 (sweep 4500 (<["a" := 1000]> ∅)) = sweep 5000 (<["a" := 1000]> ∅).
Proof. apply sweep_then_later_sweep. lia. Defined.

(** X12. A frame touches at most one record. With a non-empty [agentId] it
    records that id, whatever its text and whatever the graph; with none,
    or an empty one, it records the non-empty correlation match of its text
    (the empty text when it has none), if any. The record of the resolved
    id gets the arrival time, every other record is left as it was, and a
    frame that resolves to nothing or fails to parse changes nothing. *)
Theorem frame_touches_one_record (g : AgentGraph) (frame : ProgressEvent)
    (now : Z) (m : gmap string Z) :
  (forall a : string, agentId frame = Some a -> a <> "" -> resolve g frame = Some a) /\
  (agentId frame = None \/ agentId frame = Some "" ->
   resolve g frame
   = match matchAgentByMessage g (default "" (text frame)) with
     | Some i => if Str.truthy i then Some i else None
     | None => None
     end) /\
  (forall N : string, resolve g frame = Some N ->
      onmessage g (Some frame) now m !! N = Some now /\
      forall k, k <> N -> onmessage g (Some frame) now m !! k = m !! k) /\
  (resolve g frame = None -> onmessage g (Some frame) now m = m) /\
  onmessage g None now m = m.
Proof.
  split; [|split; [|split; [|split]]].
  - intros a Ha Hne. unfold resolve. rewrite Ha.
    destruct a; [by destruct Hne|reflexivity].
  - intros [Ha|Ha]; unfold resolve; rewrite Ha; reflexivity.
  - intros N HN. unfold onmessage. rewrite HN. unfold arrive. split.
    + apply lookup_insert_eq.
    + intros k Hk. apply lookup_insert_ne. congruence.
  - intros Hnone. unfold onmessage. by rewrite Hnone.
  - reflexivity.
Qed.

Lemma frame_touches_one_record_witness :
  resolve Sample.veo_swapped
    {| text := Some "Generating video"; agentId := Some "vision.analyze";
       status := None; data := None; ts := 0 |} = Some "vision.analyze" /\
  resolve Sample.veo_swapped
    {| text := Some "Generating video"; agentId := Some "";
       status := None; data := None; ts := 0 |} = Some "veo.operation".
Proof.
  split.
  - apply (frame_touches_one_record Sample.veo_swapped _ 0 ∅); [reflexivity|].
    intros H. discriminate H.
  - destruct (frame_touches_one_record Sample.veo_swapped
                {| text := Some "Generating video"; agentId := Some "";
                   status := None; data := None; ts := 0 |} 0 ∅) as [_ [Htext _]].
    rewrite Htext by (by right). vm_compute. reflexivity.
Defined.

(** X13. The highlight follows the record. While the record of [N], made at
    a non-zero time, has not been swept, every node with id [N] is drawn
    active and so is every edge that starts or ends at [N]. Once a sweep at
    or after [T + 4000] has run, a node with id [N] is no longer active and
    an edge from [N] is active only through its other end, provided the
    name [N] is not one that the prototype of a plain object answers. *)
Theorem highlight_follows_record (inherited : string -> bool) (g : AgentGraph)
    (N : string) (frame : ProgressEvent) (T : Z) (evs : list TrackerEvent)
    (m0 : gmap string Z) :
  resolve g frame = Some N ->
  N <> "__proto__" ->
  T <> 0 ->
  Forall (fun ev => ~ arrival_for g N ev) evs ->
  let m := run g (Message (Some frame) T :: evs) m0 in
  ((forall t, Tick t ∈ evs -> t < T + 4000) ->
   (forall n, id (node n) = N -> node_active inherited m n = true) /\
   (forall e, from (edge e) = N \/ to (edge e) = N -> isEdgeActive inherited e m = true)) /\
  ((exists t, Tick t ∈ evs /\ T + 4000 <= t) -> inherited N = false ->
   (forall n, id (node n) = N -> node_active inherited m n = false) /\
   (forall e, from (edge e) = N ->
              isEdgeActive inherited e m = lit inherited m (to (edge e))) /\
   (forall e, to (edge e) = N ->
              isEdgeActive inherited e m = lit inherited m (from (edge e)))).
Proof.
  intros Hres HN HT Hquiet m.
  destruct (record_window g N frame T evs m0 Hres Hquiet) as [Hkept Hgone].
  fold m in Hkept, Hgone. split.
  - intros Hticks. specialize (Hkept HN Hticks).
    assert (lit inherited m N = true) as Hlit.
    { unfold lit. rewrite Hkept. apply negb_true_iff, Z.eqb_neq. exact HT. }
    split.
    + intros n Hn. unfold node_active. by rewrite Hn.
    + intros e [He|He]; unfold isEdgeActive; rewrite He, Hlit;
        [reflexivity|apply orb_true_r].
  - intros Hlate Hinh. specialize (Hgone Hlate).
    assert (lit inherited m N = false) as Hlit by (unfold lit; by rewrite Hgone).
    split; [|split].
    + intros n Hn. unfold node_active. by rewrite Hn.
    + intros e He. unfold isEdgeActive. by rewrite He, Hlit.
    + intros e He. unfold isEdgeActive. rewrite He, Hlit. apply orb_false_r.
Qed.

Lemma highlight_follows_record_witness :
  isEdgeActive (fun _ => false)
    {| edge := Sample.a_to_b; x1 := 320; y1 := 168; x2 := 380; y2 := 328 |}
    (run Sample.small [Message (Some (Sample.explicit "a")) 100; Tick 1000] ∅) = true.
Proof.
  destruct (highlight_follows_record (fun _ => false) Sample.small
              "a" (Sample.explicit "a") 100 [Tick 1000] ∅)
    as [Hon _].
  - reflexivity.
  - intros H. discriminate H.
  - lia.
  - repeat constructor. simpl. tauto.
  - apply Hon; [|by left].
    intros t Ht. apply list_elem_of_In in Ht. simpl in Ht.
    destruct Ht as [Ht|Ht]; [injection Ht as <-; lia|destruct Ht].
Defined.

(** ** Hover *)

Lemma hover_stale_leaves n evs :
  Forall (fun ev => exists k, ev = Leave k /\ k <> n) evs ->
  hover_run evs (Some n) = Some n.
Proof.
  induction 1 as [|ev evs [k [-> Hk]] _ IH]; [reflexivity|].
  unfold hover_run. simpl. destruct (String.eqb_spec n k) as [Heq|_]; [|exact IH].
  exfalso. by apply Hk.
Qed.

(** X14. Once the pointer has entered node [n], leave events of other
    nodes, arriving late, do not clear the hover; the leave event of [n]
    itself does. While a non-empty id is hovered, exactly the nodes with
    another id are dimmed and exactly the edges that neither start nor end
    at the hovered id; with no hover, or a hover on the empty id, nothing is
    dimmed. *)
Theorem hover_and_dimming (n : string) (h : option string) (evs : list HoverEvent) :
  Forall (fun ev => exists k, ev = Leave k /\ k <> n) evs ->
  hover_run (Enter n :: evs) h = Some n /\
  hover_run (Enter n :: evs ++ [Leave n]) h = None /\
  (n <> "" ->
   (forall p, node_dim (Some n) p = false <-> id (node p) = n) /\
   (forall e, edge_dim (Some n) e = false <-> from (edge e) = n \/ to (edge e) = n)) /\
  (forall p e, node_dim None p = false /\ edge_dim None e = false /\
               node_dim (Some "") p = false /\ edge_dim (Some "") e = false).
Proof.
  intros Hstale. split; [|split; [|split]].
  - unfold hover_run. simpl. by apply hover_stale_leaves.
  - unfold hover_run. simpl. rewrite fold_left_app.
    change (fold_left hover_step evs (Some n)) with (hover_run evs (Some n)).
    rewrite (hover_stale_leaves n evs Hstale). simpl. by rewrite String.eqb_refl.
  - intros Hne.
    assert (hovering (Some n) = Some n) as Hhover
      by (unfold hovering; destruct n; [by destruct Hne|reflexivity]).
    split.
    + intros p. unfold node_dim. rewrite Hhover, negb_false_iff, String.eqb_eq.
      split; intros Heq; by symmetry.
    + intros e. unfold edge_dim. rewrite Hhover, andb_false_iff, !negb_false_iff.
      rewrite !String.eqb_eq. split; intros [Heq|Heq]; auto.
  - intros p e. repeat split; reflexivity.
Qed.

Lemma hover_and_dimming_witness :
  hover_run [Enter "a"; Enter "b"; Leave "a"] None = Some "b" /\
  hover_run [Enter "b"; Leave "a"; Leave "b"] None = None.
Proof.
  destruct (hover_and_dimming "b" (Some "a") [Leave "a"]) as [Hkeep _].
  { constructor; [|constructor]. exists "a". split; [reflexivity|].
    intros H. discriminate H. }
  destruct (hover_and_dimming "b" None [Leave "a"]) as [_ [Hclear _]].
  { constructor; [|constructor]. exists "a". split; [reflexivity|].
    intros H. discriminate H. }
  split; [exact Hkeep|exact Hclear].
Defined.

(** ** Progress push route: failures, session, and the page's reading *)





(** X17. What the publisher names is what the page records. For a request
    the route accepts, the event handed to the bus, read by the page's
    message handler, resolves to the request's [agentId] when that is a
    non-empty string, whatever the message and the graph; otherwise it
    resolves to the non-empty correlation match of the trimmed message, if
    there is one. *)
Theorem published_event_resolves (g : AgentGraph) (body : jsval) (now : Z) :
  (forall a, Js.get body "agentId" = JStr a -> a <> "" ->
             resolve g (event_of body now) = Some a) /\
  (lacks_agentId body ->
   resolve g (event_of body now)
   = match matchAgentByMessage g (body_message body) with
     | Some i => if Str.truthy i then Some i else None
     | None => None
     end).
Proof.
  split.
  - intros a Ha Hne. unfold resolve, event_of, body_string. simpl. rewrite Ha.
    destruct a; [by destruct Hne|reflexivity].
  - intros Hlacks.
    assert (default "" (text (event_of body now)) = body_message body) as Htext.
    { unfold event_of. simpl. destruct (body_message body); reflexivity. }
    unfold resolve. rewrite Htext.
    unfold lacks_agentId in Hlacks. unfold event_of, body_string. simpl.
    destruct (Js.get body "agentId") as [| |?|?|a|?|?]; try reflexivity.
    subst a. reflexivity.
Qed.

Lemma published_event_resolves_witness :
  resolve AgentsGraph.getAgentGraph
    (event_of (JObj [("message", JStr "  Generating video  ")]) 7)
  = Some "veo.generate".
Proof.
  destruct (published_event_resolves AgentsGraph.getAgentGraph
              (JObj [("message", JStr "  Generating video  ")]) 7) as [_ Htext].
  rewrite Htext by exact I. vm_compute. reflexivity.
Defined.

(** ** Trimming *)













Section TrimFacts.
Variable ws : list string.
Hypothesis ws_nonempty : Forall (fun w => w <> "") ws.





End TrimFacts.






(** ** Layout Engine: the lane order is canonical *)

(** X19. With a consistent comparator the order of a lane is fixed by the
    graph: any arrangement of the lane's nodes that is sorted by name and
    keeps nodes with equal names in input order is the order the layout
    gives the lane. *)
Theorem lane_order_is_canonical (localeCompare : string -> string -> Z)
    (consistent : Consistent localeCompare) (g : AgentGraph) (gr : Group)
    (arranged : list AgentNode) :
  Permutation arranged (filter (fun n => group n = gr) (nodes g)) ->
  StronglySorted (fun a b => localeCompare (name a) (name b) <= 0) arranged ->
  (forall a0 : AgentNode,
      filter (fun n => localeCompare (name a0) (name n) = 0) arranged
      = filter (fun n => localeCompare (name a0) (name n) = 0)
               (filter (fun n => group n = gr) (nodes g))) ->
  map node (filter (fun p => group (node p) = gr)
                   (positionedNodes (computeLayout localeCompare g)))
  = arranged.
Proof.
  intros Hperm Hsorted Hstable.
  change (positionedNodes (computeLayout localeCompare g))
    with (place localeCompare (nodes g)).
  rewrite place_filter, lane_nodes. symmetry.
  apply (stable_sort_unique (by_name localeCompare)
           (by_name_consistent localeCompare consistent)).
  - exact Hperm.
  - exact Hsorted.
  - exact Hstable.
Qed.

Lemma lane_order_is_canonical_witness :
  map node (filter (fun p => group (node p) = analysis)
                   (positionedNodes (computeLayout Sample.ordinal Sample.small)))
  = [Sample.C; Sample.B; Sample.B'].
Proof.
  apply (lane_order_is_canonical Sample.ordinal ordinal_consistent Sample.small analysis).
  - change (filter (fun n => group n = analysis) (nodes Sample.small))
      with [Sample.B; Sample.B'; Sample.C].
    apply (Permutation_cons_app [Sample.B; Sample.B'] [] Sample.C).
    rewrite app_nil_r. reflexivity.
  - repeat constructor; vm_compute; discriminate.
  - intros a0.
    change (filter (fun n => group n = analysis) (nodes Sample.small))
      with [Sample.B; Sample.B'; Sample.C].
    rewrite !filter_cons, !filter_nil.
    change (name Sample.B') with (name Sample.B).
    destruct (decide (Sample.ordinal (name a0) (name Sample.C) = 0)) as [HC|HC];
      destruct (decide (Sample.ordinal (name a0) (name Sample.B) = 0)) as [HB|HB];
      try reflexivity.
    exfalso.
    pose proof (tied_trans Sample.ordinal ordinal_consistent _ _ _
                  (tied_sym Sample.ordinal ordinal_consistent _ _ HC) HB) as Habs.
    vm_compute in Habs. discriminate Habs.
Defined.
